(** * A fixed-size worker-thread pool (threadpool_V1.h / threadpool_V1.cpp)

    Shallow embedding of [opensource::cpp::ThreadPool].  The pool object is a
    record; every worker thread is represented by the point of [run()] it
    has reached, and one atomic action of a thread is one step of a
    transition function.  Blocking calls are partial: [None] means that the
    caller cannot proceed in the given state. *)

From Stdlib Require Import ZArith String Lia.
From stdpp Require Import base tactics option list.

(** ** Fixed-width integers *)

(** Two's-complement value of [x] in a signed integer of [bits] bits. *)
Definition wrap_signed (bits x : Z) : Z :=
  ((x + 2 ^ (bits - 1)) mod 2 ^ bits - 2 ^ (bits - 1))%Z.

Definition to_int64 : Z -> Z := wrap_signed 64.
Definition to_uint64 (x : Z) : Z := (x mod 2 ^ 64)%Z.
(** [std::atomic<int>] arithmetic wraps around. *)
Definition to_int : Z -> Z := wrap_signed 32.

(** ** Clock source *)

Record timeval := mkTimeval { tv_sec : Z; tv_usec : Z }.

(** [ThreadPool::getNowMs]: [tv.tv_sec * (int64_t)1000 + tv.tv_usec / 1000],
    where [tv] is what [gettimeofday] reports at the moment of the call. *)
Definition getNowMs (tv : timeval) : Z :=
  to_int64 (tv_sec tv * 1000 + Z.quot (tv_usec tv) 1000).

(** ** Tasks and futures *)

(** What the bound callable [std::bind(f, args...)] does when it is called:
    it returns a value or it throws. *)
Inductive outcome :=
| Returns (v : Z)
| Throws (e : string).

(** The shared state behind a [std::future]. *)
Inductive shared_state :=
| NotReady
| HasValue (v : Z)
| HasException (e : string).

(** [std::packaged_task<RetType()>]: the bound callable together with the
    address of its shared state. *)
Record packaged_task := mkTask { bound : outcome; promise : nat }.

(** [ThreadPool::TaskFunc].  [_func] is the closure that captures [task] and
    calls it; it owns the packaged task. *)
Record TaskFunc := mkTaskFunc { _func : packaged_task; _expireTime : Z }.

(** ** Worker threads *)

(** The point of [ThreadPool::run] a worker thread has reached. *)
Inductive thread :=
| AtWhile                    (* while (!isTerminate())            *)
| AtGet                      (* bool ok = get(task);              *)
| AtInc (task : TaskFunc)    (* ++atomic_;                        *)
| AtTry (task : TaskFunc)    (* try { expiry check; _func(); }    *)
| AtDec (task : TaskFunc)    (* --atomic_;                        *)
| AtNotify (task : TaskFunc) (* lock; notify_all if drained       *)
| AtEnd (task : TaskFunc)    (* end of the loop body: ~task       *)
| Finished.                  (* run() has returned                *)

(** ** The pool object *)

Record ThreadPool := mkPool {
  tasks_ : list TaskFunc;      (* queue<TaskFuncPtr>, front first *)
  threads_ : list thread;      (* std::vector<std::thread>        *)
  threadNum_ : nat;            (* size_t                          *)
  bTerminate_ : bool;
  atomic_ : Z;                 (* std::atomic<int>                *)
  TNOWMS : Z                   (* const int64_t TNOWMS = getNowMs() *)
}.

Definition set_tasks (q : list TaskFunc) (p : ThreadPool) : ThreadPool :=
  mkPool q (threads_ p) (threadNum_ p) (bTerminate_ p) (atomic_ p) (TNOWMS p).
Definition set_threads (ths : list thread) (p : ThreadPool) : ThreadPool :=
  mkPool (tasks_ p) ths (threadNum_ p) (bTerminate_ p) (atomic_ p) (TNOWMS p).
Definition set_threadNum (n : nat) (p : ThreadPool) : ThreadPool :=
  mkPool (tasks_ p) (threads_ p) n (bTerminate_ p) (atomic_ p) (TNOWMS p).
Definition set_bTerminate (b : bool) (p : ThreadPool) : ThreadPool :=
  mkPool (tasks_ p) (threads_ p) (threadNum_ p) b (atomic_ p) (TNOWMS p).
Definition set_atomic (a : Z) (p : ThreadPool) : ThreadPool :=
  mkPool (tasks_ p) (threads_ p) (threadNum_ p) (bTerminate_ p) a (TNOWMS p).

(** [std::queue::empty()] and [std::vector::empty()]. *)
Definition is_nil {A} (l : list A) : bool :=
  match l with [] => true | _ :: _ => false end.

(** [ThreadPool::ThreadPool()]: [threadNum_(1), bTerminate_(false)]; the
    default member initialisers set [atomic_{0}] and read the clock once
    for [TNOWMS]. *)
Definition ThreadPool_new (now : timeval) : ThreadPool :=
  {| tasks_ := []; threads_ := []; threadNum_ := 1; bTerminate_ := false;
     atomic_ := 0; TNOWMS := getNowMs now |}.

Definition getThreadNum (p : ThreadPool) : nat := length (threads_ p).
Definition getJobNum (p : ThreadPool) : nat := length (tasks_ p).
Definition isTerminate (p : ThreadPool) : bool := bTerminate_ p.

(** [ThreadPool::init]. *)
Definition init (num : nat) (p : ThreadPool) : bool * ThreadPool :=
  if negb (is_nil (threads_ p)) then (false, p)
  else (true, set_threadNum num p).

(** The loop of [ThreadPool::start]: one [emplace_back] per iteration; a new
    thread begins at the head of [run]. *)
Fixpoint spawn (n : nat) (ths : list thread) : list thread :=
  match n with
  | O => ths
  | S n' => spawn n' (ths ++ [AtWhile])
  end.

(** [ThreadPool::start]. *)
Definition start (p : ThreadPool) : bool * ThreadPool :=
  if negb (is_nil (threads_ p)) then (false, p)
  else (true, set_threads (spawn (threadNum_ p) (threads_ p)) p).

(** [ThreadPool::get].  [None]: the caller stays in [condition_.wait];
    [Some (None, p)]: returned [false]; [Some (Some t, p')]: returned [true]
    with [task = t]. *)
Definition get (p : ThreadPool) : option (option TaskFunc * ThreadPool) :=
  if is_nil (tasks_ p) && negb (bTerminate_ p || negb (is_nil (tasks_ p)))
  then None
  else if bTerminate_ p then Some (None, p)
  else match tasks_ p with
       | t :: q => Some (Some t, set_tasks q p)
       | [] => Some (None, p)
       end.

(** The test of [run] that decides whether a dequeued task is dropped. *)
Definition expired (p : ThreadPool) (t : TaskFunc) : bool :=
  negb (_expireTime t =? 0)%Z && (_expireTime t <? TNOWMS p)%Z.

(** The condition under which [run] calls [condition_.notify_all()]. *)
Definition drained (p : ThreadPool) : bool :=
  (atomic_ p =? 0)%Z && is_nil (tasks_ p).

(** The predicate [[this] { return tasks_.empty(); }] of both waits in
    [waitForAllDone]. *)
Definition wait_pred (p : ThreadPool) : bool := is_nil (tasks_ p).

(** Where a caller of [waitForAllDone] is when it holds the mutex: it has
    just called, or it has been woken inside [wait] / [wait_for], the timed
    wait having used up its [millsecond] or not. *)
Inductive wait_phase :=
| Called
| Woken (timed_out : bool).

(** [ThreadPool::waitForAllDone], on the state [p] the caller sees under the
    mutex.  [None]: the caller releases the mutex and waits on
    [condition_]. *)
Definition waitForAllDone (millsecond : Z) (ph : wait_phase) (p : ThreadPool)
  : option bool :=
  match ph with
  | Called => if is_nil (tasks_ p) then Some true else None
  | Woken timed_out =>
      if (millsecond <? 0)%Z then
        (* condition_.wait(lock, pred); return true; *)
        if wait_pred p then Some true else None
      else
        (* return condition_.wait_for(lock, millsecond, pred); *)
        if wait_pred p then Some true
        else if timed_out then Some (wait_pred p)
        else None
  end.

(** ** The process: pool, clock, futures *)

Record State := mkState {
  pool : ThreadPool;
  clock : timeval;              (* what gettimeofday reports now        *)
  futures : list shared_state;  (* shared states, by address            *)
  effects : list nat;           (* bound callables that ran, latest first *)
  signals : nat;                (* notify_all calls made by workers     *)
  aborted : bool                (* std::terminate has been called       *)
}.

Definition with_pool (f : ThreadPool -> ThreadPool) (s : State) : State :=
  mkState (f (pool s)) (clock s) (futures s) (effects s) (signals s) (aborted s).
Definition set_clock (tv : timeval) (s : State) : State :=
  mkState (pool s) tv (futures s) (effects s) (signals s) (aborted s).
Definition set_futures (h : list shared_state) (s : State) : State :=
  mkState (pool s) (clock s) h (effects s) (signals s) (aborted s).
Definition set_effects (l : list nat) (s : State) : State :=
  mkState (pool s) (clock s) (futures s) l (signals s) (aborted s).
Definition set_signals (n : nat) (s : State) : State :=
  mkState (pool s) (clock s) (futures s) (effects s) n (aborted s).
Definition set_aborted (b : bool) (s : State) : State :=
  mkState (pool s) (clock s) (futures s) (effects s) (signals s) b.

(** A process that constructs a pool when the clock reads [now]. *)
Definition new_process (now : timeval) : State :=
  {| pool := ThreadPool_new now; clock := now; futures := []; effects := [];
     signals := 0; aborted := false |}.

(** [std::future::get]: [None] while the caller would block, otherwise the
    value or the rethrown exception. *)
Definition future_get (s : State) (fut : nat) : option (Z + string) :=
  match futures s !! fut with
  | Some (HasValue v) => Some (inl v)
  | Some (HasException e) => Some (inr e)
  | _ => None
  end.

(** [ThreadPool::exec(int64_t timeoutMs, F&& f, Args&&... args)].  The
    packaged task gets a fresh shared state; the returned future is its
    address.  The sum [TNOWMS + timeoutMs] is taken to wrap around in 64
    bits; the constructor of [TaskFunc] takes the expiry as [uint64_t] and
    stores it in an [int64_t]. *)
Definition exec (timeoutMs : Z) (f : outcome) (s : State) : nat * State :=
  let p := pool s in
  let expireTime :=
    if (timeoutMs =? 0)%Z then 0%Z else to_int64 (TNOWMS p + timeoutMs) in
  let task := mkTask f (length (futures s)) in
  let fPtr := mkTaskFunc task (to_int64 (to_uint64 expireTime)) in
  (promise task,
   with_pool (set_tasks (tasks_ p ++ [fPtr]))
     (set_futures (futures s ++ [NotReady]) s)).

(** [exec(F&& f, Args&&... args)] is [exec(0, f, args...)]. *)
Definition exec0 (f : outcome) (s : State) : nat * State := exec 0 f s.

(** [std::packaged_task::operator()]: runs the bound callable and stores its
    value or its exception in the shared state.  [None]: the call itself
    throws [std::future_error] (no shared state, or already satisfied)
    without running the callable. *)
Definition invoke (task : packaged_task) (s : State) : option State :=
  match futures s !! promise task with
  | Some NotReady =>
      let r := match bound task with
               | Returns v => HasValue v
               | Throws e => HasException e
               end in
      Some (set_effects (promise task :: effects s)
              (set_futures (<[promise task := r]> (futures s)) s))
  | _ => None
  end.

(** What a future gives when its packaged task was destroyed before it was
    called: [std::future_error] with the code [broken_promise]. *)
Definition broken_promise : string := "std::future_error: Broken promise".

(** [std::packaged_task::~packaged_task]: the shared state is abandoned; if
    it is not ready it is made ready with the exception [broken_promise]. *)
Definition abandon (task : packaged_task) (s : State) : State :=
  match futures s !! promise task with
  | Some NotReady =>
      set_futures
        (<[promise task := HasException broken_promise]> (futures s)) s
  | _ => s
  end.

Definition set_thread (i : nat) (t : thread) (s : State) : State :=
  with_pool (fun p => set_threads (<[i := t]> (threads_ p)) p) s.

(** One atomic action of worker [i] in [ThreadPool::run].  [None]: the
    worker cannot move (it waits in [get], it has returned, the process is
    gone, or there is no such worker).  The local [task] of the loop body
    is the only owner of the dequeued envelope, whose closure is the only
    owner of the packaged task: at the end of the loop body both are
    destroyed. *)
Definition worker_step (i : nat) (s : State) : option State :=
  if aborted s then None else
  match threads_ (pool s) !! i with
  | None => None
  | Some AtWhile =>
      Some (set_thread i (if isTerminate (pool s) then Finished else AtGet) s)
  | Some AtGet =>
      match get (pool s) with
      | None => None
      | Some (None, p') => Some (set_thread i AtWhile (with_pool (fun _ => p') s))
      | Some (Some t, p') => Some (set_thread i (AtInc t) (with_pool (fun _ => p') s))
      end
  | Some (AtInc t) =>
      Some (set_thread i (AtTry t)
              (with_pool (fun p => set_atomic (to_int (atomic_ p + 1)) p) s))
  | Some (AtTry t) =>
      if expired (pool s) t then Some (set_thread i (AtDec t) s)
      else match invoke (_func t) s with
           | Some s' => Some (set_thread i (AtDec t) s')
           | None =>
               (* catch (std::exception &e) { throw; } leaves the thread
                  function through an exception *)
               Some (set_aborted true s)
           end
  | Some (AtDec t) =>
      Some (set_thread i (AtNotify t)
              (with_pool (fun p => set_atomic (to_int (atomic_ p - 1)) p) s))
  | Some (AtNotify t) =>
      Some (set_thread i (AtEnd t)
              (if drained (pool s) then set_signals (S (signals s)) s else s))
  | Some (AtEnd t) => Some (set_thread i AtWhile (abandon (_func t) s))
  | Some Finished => None
  end.

(** [std::thread::join] on [threads_[i]]: the caller resumes once the worker
    has returned from [run]. *)
Fixpoint join (fuel : nat) (i : nat) (s : State) : option State :=
  match threads_ (pool s) !! i with
  | Some Finished => Some s
  | _ =>
      match fuel with
      | O => None
      | S fuel' => s' ← worker_step i s; join fuel' i s'
      end
  end.

(** [for (size_t i = 0; i < threads_.size(); i++) threads_[i].join()]. *)
Fixpoint join_all (fuel : nat) (idx : list nat) (s : State) : option State :=
  match idx with
  | [] => Some s
  | i :: rest => s' ← join fuel i s; join_all fuel rest s'
  end.

(** A worker that sees the shutdown flag needs at most this many actions to
    return from [run]. *)
Definition join_fuel : nat := 6.

(** [ThreadPool::terminate]: set the flag, join every worker in turn while
    the joined worker runs, clear the vector. *)
Definition terminate (s : State) : option State :=
  if aborted s then None else
  let s1 := with_pool (set_bTerminate true) s in
  s2 ← join_all join_fuel (seq 0 (length (threads_ (pool s1)))) s1;
  Some (with_pool (set_threads []) s2).

(** The destruction of [tasks_]: every envelope that is still queued is
    destroyed, and with it its packaged task. *)
Fixpoint abandon_all (q : list TaskFunc) (s : State) : State :=
  match q with
  | [] => s
  | t :: rest => abandon_all rest (abandon (_func t) s)
  end.

(** The destruction of the members after the body of the destructor;
    [threads_] has been cleared by [terminate]. *)
Definition destroy_members (s : State) : State :=
  with_pool (set_tasks []) (abandon_all (tasks_ (pool s)) s).

(** [ThreadPool::~ThreadPool]: [terminate()], then the members are
    destroyed. *)
Definition ThreadPool_delete (s : State) : option State :=
  s1 ← terminate s; Some (destroy_members s1).

(** ** Interleavings *)

Inductive event :=
| CallInit (num : nat)
| CallStart
| CallExec (timeoutMs : Z) (f : outcome)
| CallTerminate
| Worker (i : nat)
| ClockReads (now : timeval).

Definition step (e : event) (s : State) : option State :=
  if aborted s then None else
  match e with
  | CallInit num => Some (with_pool (fun p => snd (init num p)) s)
  | CallStart => Some (with_pool (fun p => snd (start p)) s)
  | CallExec timeoutMs f => Some (snd (exec timeoutMs f s))
  | CallTerminate => terminate s
  | Worker i => worker_step i s
  | ClockReads now => Some (set_clock now s)
  end.

Fixpoint run (evs : list event) (s : State) : option State :=
  match evs with
  | [] => Some s
  | e :: rest => s' ← step e s; run rest s'
  end.

(** States the process can be in after the pool has been constructed. *)
Definition reachable (s : State) : Prop :=
  exists now evs, run evs (new_process now) = Some s.

(** ** Bookkeeping of the tasks that have not run yet *)

Definition task_id (t : TaskFunc) : nat := promise (_func t).

(** The task a worker has dequeued and not yet handled. *)
Definition held (t : thread) : list nat :=
  match t with
  | AtInc k | AtTry k => [task_id k]
  | _ => []
  end.

(** The task whose envelope a worker owns, from the dequeue to the end of
    the loop body. *)
Definition owned (t : thread) : list nat :=
  match t with
  | AtInc k | AtTry k | AtDec k | AtNotify k | AtEnd k => [task_id k]
  | _ => []
  end.

Definition queued (p : ThreadPool) : list nat := task_id <$> tasks_ p.
Definition in_hand (p : ThreadPool) : list nat := threads_ p ≫= held.
Definition in_grip (p : ThreadPool) : list nat := threads_ p ≫= owned.
Definition pending (s : State) : list nat :=
  queued (pool s) ++ in_hand (pool s).
Definition envelopes (s : State) : list nat :=
  queued (pool s) ++ in_grip (pool s).

(** What every reachable state satisfies. *)
Record consistent (s : State) : Prop := mkConsistent {
  c_alive : aborted s = false;
  c_nodup : NoDup (envelopes s);
  c_fresh : forall k, k ∈ pending s -> futures s !! k = Some NotReady;
  c_ran : forall k, k ∈ effects s -> is_Some (future_get s k);
  c_once : NoDup (effects s);
  c_alloc : forall k, k ∈ envelopes s -> k < length (futures s);
  c_threads :
    threads_ (pool s) = [] \/ length (threads_ (pool s)) = threadNum_ (pool s)
}.

(** The envelope [exec] builds in state [s]. *)
Definition envelope (timeoutMs : Z) (f : outcome) (s : State) : TaskFunc :=
  mkTaskFunc (mkTask f (length (futures s)))
    (to_int64 (to_uint64
       (if (timeoutMs =? 0)%Z then 0%Z
        else to_int64 (TNOWMS (pool s) + timeoutMs)))).

(** Number of actions a worker that sees the flag still takes. *)
Definition distance (t : thread) : nat :=
  match t with
  | Finished => 0
  | AtWhile => 1
  | AtGet | AtEnd _ => 2
  | AtNotify _ => 3
  | AtDec _ => 4
  | AtTry _ => 5
  | AtInc _ => 6
  end.

(** What holds all along the joins of [terminate]. *)
Definition shutting_down (q : list TaskFunc) (n : nat) (s : State) : Prop :=
  consistent s /\ bTerminate_ (pool s) = true /\
  tasks_ (pool s) = q /\ length (threads_ (pool s)) = n.

(** Task [k] sits in the queue of a pool whose flag is set. *)
Definition abandoned (k : nat) (s : State) : Prop :=
  bTerminate_ (pool s) = true /\
  futures s !! k = Some NotReady /\
  (k ∉ effects s) /\
  (k ∉ in_grip (pool s)) /\
  k ∈ queued (pool s).

(** ** Programs of submissions and dequeues *)

(** A program that only submits and dequeues. *)
Inductive queue_op :=
| Submit (timeoutMs : Z) (f : outcome)
| Dequeue.

Record queue_trace := mkTrace {
  submitted : list TaskFunc;   (* envelopes in the order of the [exec] calls *)
  dequeued : list TaskFunc;    (* envelopes in the order [get] returned them *)
  final : State
}.

(** Runs [ops] with [exec] and [get]; a [get] that waits or returns [false]
    dequeues nothing. *)
Fixpoint run_queue (ops : list queue_op) (s : State) : queue_trace :=
  match ops with
  | [] => mkTrace [] [] s
  | Submit timeoutMs f :: rest =>
      let r := run_queue rest (snd (exec timeoutMs f s)) in
      mkTrace (envelope timeoutMs f s :: submitted r) (dequeued r) (final r)
  | Dequeue :: rest =>
      match get (pool s) with
      | Some (Some t, p') =>
          let r := run_queue rest (with_pool (fun _ => p') s) in
          mkTrace (submitted r) (t :: dequeued r) (final r)
      | _ => run_queue rest s
      end
  end.

(** ** Scenarios *)

(** The clock one second and five seconds after the epoch. *)
Definition at_1000ms : timeval := mkTimeval 1 0.
Definition at_5000ms : timeval := mkTimeval 5 0.

(** A pool constructed at 1000 ms that is asked for work at 5000 ms. *)
Definition late_submit : State := set_clock at_5000ms (new_process at_1000ms).

(** [init(1)], a task submitted with a 50 ms timeout at 1000 ms, the worker
    started at 5000 ms; the worker has dequeued the task and is about to
    test its expiry. *)
Definition overdue_events : list event :=
  [CallInit 1; CallExec 50 (Returns 7); ClockReads at_5000ms; CallStart;
   Worker 0; Worker 0; Worker 0].

(** [init(1); start(); exec(f)]: the only worker has dequeued [f] and
    counted it as in flight, and has not called it yet. *)
Definition in_flight_events : list event :=
  [CallInit 1; CallStart; CallExec 0 (Returns 7);
   Worker 0; Worker 0; Worker 0].

(** [init(1); start(); exec(a); exec(b)]: the worker has run [a] and is back
    at the head of its loop, [b] is queued. *)
Definition one_done_events : list event :=
  [CallInit 1; CallStart; CallExec 0 (Returns 10); CallExec 0 (Returns 20);
   Worker 0; Worker 0; Worker 0; Worker 0; Worker 0; Worker 0; Worker 0].

(** Two workers, the first about to call a task that throws, a second task
    still queued. *)
Definition failing_events : list event :=
  [CallInit 2; CallStart; CallExec 0 (Throws "boom"); CallExec 0 (Returns 3);
   Worker 0; Worker 0; Worker 0].

Definition after (evs : list event) : State :=
  default (new_process at_1000ms) (run evs (new_process at_1000ms)).

(** [terminate] has just set the flag while a task is still queued. *)
Definition flagged_with_work : State :=
  with_pool (set_bTerminate true) (after one_done_events).

(** Three submissions, one of them with a timeout, then three dequeues. *)
Definition three_tasks : list (Z * outcome) :=
  [(0%Z, Returns 1); (40%Z, Throws "late"); (0%Z, Returns 3)].

(** What follows a submission to a terminated pool: the pool is started
    again and the new worker takes its first action. *)
Definition restart_events : list event := [CallStart; Worker 0].

(** A pool with one worker and three queued tasks, the second one submitted
    with a negative timeout, which the expiry test drops. *)
Definition three_queued_events : list event :=
  [CallInit 1; CallExec 0 (Returns 10); CallExec (-5) (Returns 20);
   CallExec 0 (Throws "boom"); CallStart].

(** After shutdown: the flag is set in [s], the queue of [s0] is still at
    the front of the queue of [s], what is in a worker's hand in [s] was so
    in [s0], and what has run in [s] had run or was in a worker's hand in
    [s0]. *)
Definition frozen (s0 s : State) : Prop :=
  bTerminate_ (pool s) = true /\
  tasks_ (pool s0) `prefix_of` tasks_ (pool s) /\
  (forall k, k ∈ in_hand (pool s) -> k ∈ in_hand (pool s0)) /\
  (forall k, k ∈ effects s -> k ∈ effects s0 \/ k ∈ in_hand (pool s0)).

(** ** Further bookkeeping *)

(** The values of [int64_t]. *)
Definition in_int64 (x : Z) : Prop := (- 2 ^ 63 <= x < 2 ^ 63)%Z.

(** A [timeval] as [gettimeofday] fills it in, microseconds below one
    second, early and late enough for its milliseconds to fit [int64_t]. *)
Definition normal_timeval (tv : timeval) : Prop :=
  (0 <= tv_usec tv < 1000000)%Z /\
  (-9223372036854775 <= tv_sec tv <= 9223372036854774)%Z.

(** [a] is not later than [b]. *)
Definition timeval_le (a b : timeval) : Prop :=
  (tv_sec a < tv_sec b)%Z \/
  (tv_sec a = tv_sec b /\ (tv_usec a <= tv_usec b)%Z).

(** What [std::packaged_task] leaves in the shared state of a callable
    that has run, and what [std::future::get] then gives. *)
Definition stored (f : outcome) : shared_state :=
  match f with
  | Returns v => HasValue v
  | Throws e => HasException e
  end.

Definition result (f : outcome) : Z + string :=
  match f with
  | Returns v => inl v
  | Throws e => inr e
  end.

(** A worker between [++atomic_] and [--atomic_]. *)
Definition busy (t : thread) : bool :=
  match t with
  | AtTry _ | AtDec _ => true
  | _ => false
  end.

Fixpoint count_busy (ths : list thread) : Z :=
  match ths with
  | [] => 0
  | t :: rest => (if busy t then 1 else 0) + count_busy rest
  end%Z.

(** Worker [t] has dequeued envelope [k] and not called it yet. *)
Definition holds (k : TaskFunc) (t : thread) : Prop :=
  t = AtInc k \/ t = AtTry k.

(** The seven actions in which a worker at the head of its loop dequeues
    one task, handles it, destroys its envelope and comes back to the head
    of the loop. *)
Definition round (i : nat) : list event := replicate 7 (Worker i).

Fixpoint rounds (i n : nat) : list event :=
  match n with
  | O => []
  | S n' => round i ++ rounds i n'
  end.

(** The envelopes of [q] that the expiry test of [run] lets through. *)
Definition live (p : ThreadPool) (q : list TaskFunc) : list TaskFunc :=
  filter (fun t => expired p t = false) q.

(** The envelope in the local variable [task] of [run]. *)
Definition task_of (w : thread) : option TaskFunc :=
  match w with
  | AtInc k | AtTry k | AtDec k | AtNotify k | AtEnd k => Some k
  | _ => None
  end.

(** The envelope a worker has handled, called or dropped, and not yet
    destroyed. *)
Definition handled (w : thread) : option TaskFunc :=
  match w with
  | AtDec k | AtNotify k | AtEnd k => Some k
  | _ => None
  end.

(** The shared state of envelope [t0] belongs to it alone: every envelope
    with that shared state, queued or with a worker, is [t0].  If the
    expiry test drops [t0], its callable has not run and the state is not
    ready or reports a broken promise; if the test lets it through, the
    state is not ready, no worker having handled [t0], or holds what the
    callable of [t0] gives. *)
Definition owns (t0 : TaskFunc) (s : State) : Prop :=
  (forall t, t ∈ tasks_ (pool s) -> task_id t = task_id t0 -> t = t0) /\
  (forall t w, w ∈ threads_ (pool s) -> task_of w = Some t ->
     task_id t = task_id t0 -> t = t0) /\
  (if expired (pool s) t0
   then (task_id t0 ∉ effects s) /\
        (futures s !! task_id t0 = Some NotReady \/
         futures s !! task_id t0 = Some (HasException broken_promise))
   else (futures s !! task_id t0 = Some NotReady /\
         forall w, w ∈ threads_ (pool s) -> handled w <> Some t0) \/
        futures s !! task_id t0 = Some (stored (bound (_func t0)))).

(** Every future that is ready belongs to a callable that has run or
    reports a broken promise. *)
Definition accounted (s : State) : Prop :=
  forall k v, future_get s k = Some v ->
    k ∈ effects s \/ v = inr broken_promise.

(** Every shared state that is not ready has an envelope, in the queue or
    with a worker. *)
Definition promised (s : State) : Prop :=
  forall k, futures s !! k = Some NotReady -> k ∈ envelopes s.

(** The counter is the number of busy workers, as an [int]. *)
Definition counted (s : State) : Prop :=
  atomic_ (pool s) = to_int (count_busy (threads_ (pool s))).

(** Nothing that is ready in [s] is lost or changed in [s']. *)
Definition later (s s' : State) : Prop :=
  (forall k v, future_get s k = Some v -> future_get s' k = Some v) /\
  effects s `suffix_of` effects s' /\
  length (futures s) <= length (futures s').

(** Envelope [t], which the expiry test lets through, is in a worker's hand
    or has been called. *)
Definition finishing (t : TaskFunc) (s : State) : Prop :=
  expired (pool s) t = false /\
  ((exists w, w ∈ threads_ (pool s) /\ holds t w) \/
   (task_id t ∈ effects s /\
    futures s !! task_id t = Some (stored (bound (_func t))))).

(** * Proofs *)

(** Closed goals about concrete runs are settled by evaluation. *)
Ltac by_evaluation := vm_compute; first [reflexivity | done].

(** [exists_result e]: the witness is the state the concrete run [e] ends in. *)
Ltac exists_result e :=
  let v := eval vm_compute in e in
  lazymatch v with Some ?s => exists s end.

(** * Basic facts *)

Lemma spawn_app n ths : spawn n ths = ths ++ replicate n AtWhile.
Proof.
  revert ths. induction n as [|n IH]; intros ths; simpl.
  - by rewrite app_nil_r.
  - rewrite IH, <- app_assoc. done.
Qed.

Lemma spawn_length n ths : length (spawn n ths) = length ths + n.
Proof. rewrite spawn_app, length_app, length_replicate. done. Qed.

Lemma held_replicate n : replicate n AtWhile ≫= held = [].
Proof.
  induction n as [|n IH]; [done|].
  change (replicate (S n) AtWhile) with (AtWhile :: replicate n AtWhile).
  by rewrite bind_cons, IH.
Qed.

(** Replacing the state of worker [i] only changes what that worker holds. *)
Lemma bind_split (f : thread -> list nat) (ths : list thread) i t :
  ths !! i = Some t ->
  exists rest,
    ths ≫= f ≡ₚ f t ++ rest /\
    forall t', <[i := t']> ths ≫= f ≡ₚ f t' ++ rest.
Proof.
  intros Hi.
  exists ((take i ths ≫= f) ++ (drop (S i) ths ≫= f)). split.
  - rewrite <- (take_drop_middle ths i t Hi) at 1.
    rewrite bind_app, bind_cons. by rewrite Permutation_app_swap_app.
  - intros t'. rewrite insert_take_drop by (by eapply lookup_lt_Some).
    rewrite bind_app, bind_cons. by rewrite Permutation_app_swap_app.
Qed.

Lemma in_hand_split (ths : list thread) i t :
  ths !! i = Some t ->
  exists rest,
    ths ≫= held ≡ₚ held t ++ rest /\
    forall t', <[i := t']> ths ≫= held ≡ₚ held t' ++ rest.
Proof. apply bind_split. Qed.

Lemma in_grip_split (ths : list thread) i t :
  ths !! i = Some t ->
  exists rest,
    ths ≫= owned ≡ₚ owned t ++ rest /\
    forall t', <[i := t']> ths ≫= owned ≡ₚ owned t' ++ rest.
Proof. apply bind_split. Qed.

Lemma owned_replicate n : replicate n AtWhile ≫= owned = [].
Proof.
  induction n as [|n IH]; [done|].
  change (replicate (S n) AtWhile) with (AtWhile :: replicate n AtWhile).
  by rewrite bind_cons, IH.
Qed.

Lemma held_owned t : held t ⊆+ owned t.
Proof. destruct t; simpl; first [reflexivity | apply submseteq_nil_l]. Qed.

Lemma in_hand_in_grip p : in_hand p ⊆+ in_grip p.
Proof.
  unfold in_hand, in_grip. induction (threads_ p) as [|t ths IH]; [done|].
  rewrite !bind_cons. apply submseteq_app; [apply held_owned|done].
Qed.

Lemma pending_envelopes s : pending s ⊆+ envelopes s.
Proof. apply submseteq_skips_l, in_hand_in_grip. Qed.

(** [~packaged_task] touches one shared state, and only if it is not
    ready. *)
Lemma abandon_frame task s :
  pool (abandon task s) = pool s /\ effects (abandon task s) = effects s /\
  aborted (abandon task s) = aborted s /\ clock (abandon task s) = clock s /\
  length (futures (abandon task s)) = length (futures s).
Proof.
  unfold abandon. destruct (futures s !! promise task) as [[]|]; try done.
  simpl. by rewrite length_insert.
Qed.

Lemma abandon_pool task s : pool (abandon task s) = pool s.
Proof. apply abandon_frame. Qed.

Lemma abandon_effects task s : effects (abandon task s) = effects s.
Proof. apply abandon_frame. Qed.

Lemma abandon_aborted task s : aborted (abandon task s) = aborted s.
Proof. apply abandon_frame. Qed.

Lemma abandon_clock task s : clock (abandon task s) = clock s.
Proof. apply abandon_frame. Qed.

Lemma abandon_length task s :
  length (futures (abandon task s)) = length (futures s).
Proof. apply abandon_frame. Qed.

Lemma abandon_other task s k :
  k <> promise task -> futures (abandon task s) !! k = futures s !! k.
Proof.
  intros Hne. unfold abandon.
  destruct (futures s !! promise task) as [[]|]; try done.
  simpl. by rewrite list_lookup_insert_ne.
Qed.

Lemma abandon_ready task s k v :
  future_get s k = Some v -> future_get (abandon task s) k = Some v.
Proof.
  unfold future_get. intros Hv.
  destruct (decide (k = promise task)) as [->|Hne].
  - unfold abandon.
    destruct (futures s !! promise task) as [[]|] eqn:Hk; simpl;
      by rewrite ?Hk.
  - by rewrite abandon_other.
Qed.

(** The future of a destroyed task that was never called reports a broken
    promise. *)
Lemma abandon_broken task s :
  futures s !! promise task = Some NotReady ->
  futures (abandon task s) !! promise task
  = Some (HasException broken_promise).
Proof.
  intros H. unfold abandon. rewrite H. simpl.
  apply list_lookup_insert_eq. by eapply lookup_lt_Some.
Qed.

(** A shared state that is ready is left alone by the destruction of a
    packaged task. *)
Lemma abandon_kept task s k st :
  futures s !! k = Some st -> st <> NotReady ->
  futures (abandon task s) !! k = Some st.
Proof.
  intros Hk Hst. destruct (decide (k = promise task)) as [->|Hne].
  - unfold abandon. rewrite Hk. by destruct st.
  - by rewrite abandon_other.
Qed.

Lemma expired_TNOWMS p p' t :
  TNOWMS p' = TNOWMS p -> expired p' t = expired p t.
Proof. intros H. unfold expired. by rewrite H. Qed.

Lemma get_terminating p : bTerminate_ p = true -> get p = Some (None, p).
Proof. intros H. unfold get. rewrite H. by destruct (tasks_ p). Qed.

Lemma get_front p t q :
  bTerminate_ p = false -> tasks_ p = t :: q ->
  get p = Some (Some t, set_tasks q p).
Proof. intros H Hq. unfold get. rewrite H, Hq. done. Qed.

Lemma get_waits p : bTerminate_ p = false -> tasks_ p = [] -> get p = None.
Proof. intros H Hq. unfold get. rewrite H, Hq. done. Qed.

(** [get] never changes anything but the queue, and a dequeue takes the
    front. *)
Lemma get_inv p r p' :
  get p = Some (r, p') ->
  match r with
  | None => p' = p /\ bTerminate_ p = true
  | Some t => bTerminate_ p = false /\
              exists q, tasks_ p = t :: q /\ p' = set_tasks q p
  end.
Proof.
  unfold get. destruct (bTerminate_ p) eqn:Hb, (tasks_ p) as [|t q] eqn:Hq;
    simpl; intros H; simplify_eq; eauto.
Qed.

(** * The invariant *)

(** A change that only drops envelopes, leaves the futures of the pending
    tasks alone and keeps the rest in order preserves consistency. *)
Lemma consistent_frame s s' :
  consistent s ->
  aborted s' = false ->
  envelopes s' ⊆+ envelopes s ->
  pending s' ⊆+ pending s ->
  (forall k, k ∈ pending s' -> futures s' !! k = futures s !! k) ->
  (forall k, k ∈ effects s' -> is_Some (future_get s' k)) ->
  NoDup (effects s') ->
  length (futures s) <= length (futures s') ->
  (threads_ (pool s') = [] \/
   length (threads_ (pool s')) = threadNum_ (pool s')) ->
  consistent s'.
Proof.
  intros [Ha Hnd Hfr Hef Hon Hal Hth] Ha' Hsub Hsubp Hfut Hef' Hon' Hlen Hth'.
  split; auto.
  - destruct (submseteq_Permutation _ _ Hsub) as [rest Hrest].
    rewrite Hrest in Hnd. by apply NoDup_app in Hnd as (? & _ & _).
  - intros k Hk. rewrite Hfut by done. apply Hfr.
    by eapply elem_of_submseteq.
  - intros k Hk. eapply Nat.lt_le_trans; [|done]. apply Hal.
    by eapply elem_of_submseteq.
Qed.

(** A worker moves on without dequeuing: it owns no more than before. *)
Lemma lists_set_thread x s i t t' :
  threads_ (pool s) !! i = Some t ->
  tasks_ (pool x) = tasks_ (pool s) ->
  threads_ (pool x) = threads_ (pool s) ->
  held t' ⊆+ held t -> owned t' ⊆+ owned t ->
  envelopes (set_thread i t' x) ⊆+ envelopes s /\
  pending (set_thread i t' x) ⊆+ pending s.
Proof.
  intros Hi Hq Hths Hh Ho.
  destruct (in_hand_split _ _ _ Hi) as (rh & Hp & Hp').
  destruct (in_grip_split _ _ _ Hi) as (ro & Hg & Hg').
  unfold envelopes, pending, queued, in_hand, in_grip. simpl.
  rewrite Hq, Hths, Hp, Hp', Hg, Hg'. split.
  - by apply submseteq_skips_l, submseteq_skips_r.
  - by apply submseteq_skips_l, submseteq_skips_r.
Qed.

Lemma pending_set_thread s i t t' :
  threads_ (pool s) !! i = Some t ->
  exists rest,
    pending s ≡ₚ held t ++ rest /\
    pending (set_thread i t' s) ≡ₚ held t' ++ rest.
Proof.
  intros Hi. destruct (in_hand_split _ _ _ Hi) as (rest & Hp & Hp').
  exists (queued (pool s) ++ rest). unfold pending, in_hand. simpl. split.
  - rewrite Hp. by rewrite Permutation_app_swap_app.
  - rewrite Hp'. by rewrite Permutation_app_swap_app.
Qed.

Lemma envelopes_set_thread s i t t' :
  threads_ (pool s) !! i = Some t ->
  exists rest,
    envelopes s ≡ₚ owned t ++ rest /\
    envelopes (set_thread i t' s) ≡ₚ owned t' ++ rest.
Proof.
  intros Hi. destruct (in_grip_split _ _ _ Hi) as (rest & Hp & Hp').
  exists (queued (pool s) ++ rest). unfold envelopes, in_grip. simpl. split.
  - rewrite Hp. by rewrite Permutation_app_swap_app.
  - rewrite Hp'. by rewrite Permutation_app_swap_app.
Qed.

Lemma new_process_consistent now : consistent (new_process now).
Proof.
  split; simpl; auto.
  - constructor.
  - intros k Hk. by apply elem_of_nil in Hk.
  - intros k Hk. by apply elem_of_nil in Hk.
  - constructor.
  - intros k Hk. by apply elem_of_nil in Hk.
Qed.

Lemma init_consistent num s :
  consistent s -> consistent (with_pool (fun p => snd (init num p)) s).
Proof.
  intros Hc. unfold with_pool, init.
  destruct (threads_ (pool s)) as [|t ths] eqn:Hths; simpl.
  - apply (consistent_frame s); simpl; try done; try apply Hc.
    left. done.
  - by destruct s as [[] ?].
Qed.

Lemma start_consistent s :
  consistent s -> consistent (with_pool (fun p => snd (start p)) s).
Proof.
  intros Hc. unfold with_pool, start.
  destruct (threads_ (pool s)) as [|t ths] eqn:Hths; simpl.
  - apply (consistent_frame s); simpl; try done; try apply Hc.
    + unfold envelopes, in_grip; simpl.
      rewrite spawn_app. simpl. rewrite owned_replicate, Hths. done.
    + unfold pending, in_hand; simpl.
      rewrite spawn_app. simpl. rewrite held_replicate, Hths. done.
    + right. by rewrite spawn_length.
  - by destruct s as [[] ?].
Qed.

Lemma clock_consistent now s : consistent s -> consistent (set_clock now s).
Proof.
  intros Hc. apply (consistent_frame s); simpl; try done; apply Hc.
Qed.

Lemma pending_lt s k : consistent s -> k ∈ pending s -> k < length (futures s).
Proof. intros Hc Hk. eapply lookup_lt_Some. by apply c_fresh. Qed.

Lemma pending_nodup s : consistent s -> NoDup (pending s).
Proof.
  intros Hc. pose proof (c_nodup _ Hc) as Hnd.
  destruct (submseteq_Permutation _ _ (pending_envelopes s)) as [rest Hrest].
  rewrite Hrest in Hnd. by apply NoDup_app in Hnd as (? & _ & _).
Qed.

Lemma future_get_lt s k : is_Some (future_get s k) -> k < length (futures s).
Proof.
  unfold future_get. intros [r Hr].
  destruct (futures s !! k) eqn:Hk; [|done]. by eapply lookup_lt_Some.
Qed.

Lemma effects_lt s k : consistent s -> k ∈ effects s -> k < length (futures s).
Proof. intros Hc Hk. by apply future_get_lt, (c_ran _ Hc). Qed.

Lemma pending_not_run s k : consistent s -> k ∈ pending s -> k ∉ effects s.
Proof.
  intros Hc Hk Hin. apply (c_ran _ Hc) in Hin as [r Hr].
  unfold future_get in Hr. by rewrite (c_fresh _ Hc k Hk) in Hr.
Qed.

Lemma exec_consistent timeoutMs f s :
  consistent s -> consistent (snd (exec timeoutMs f s)).
Proof.
  intros Hc. pose proof (pending_lt s) as Hlt.
  assert (Hp : pending (snd (exec timeoutMs f s))
               ≡ₚ length (futures s) :: pending s).
  { unfold pending, queued, exec; simpl. rewrite fmap_app; simpl.
    rewrite <- app_assoc. simpl. by rewrite <- Permutation_middle. }
  assert (He : envelopes (snd (exec timeoutMs f s))
               ≡ₚ length (futures s) :: envelopes s).
  { unfold envelopes, queued, exec; simpl. rewrite fmap_app; simpl.
    rewrite <- app_assoc. simpl. by rewrite <- Permutation_middle. }
  split.
  - apply Hc.
  - rewrite He. constructor; [|apply Hc].
    intros Hin. apply (c_alloc _ Hc) in Hin. lia.
  - intros k. rewrite Hp. intros [->|Hin]%elem_of_cons; simpl.
    + apply list_lookup_middle. done.
    + rewrite lookup_app_l by (by apply Hlt). by apply c_fresh.
  - intros k Hk. pose proof (effects_lt _ _ Hc Hk) as Hklt.
    apply (c_ran _ Hc) in Hk. unfold future_get in *. simpl.
    by rewrite lookup_app_l.
  - apply Hc.
  - intros k. rewrite He. simpl. rewrite length_app. simpl.
    intros [->|Hin]%elem_of_cons; [lia|]. apply (c_alloc _ Hc) in Hin. lia.
  - apply Hc.
Qed.

(** Running a pending task fulfils its future and nothing else. *)
Lemma invoke_pending s task :
  futures s !! promise task = Some NotReady ->
  exists r,
    invoke task s =
      Some (set_effects (promise task :: effects s)
              (set_futures (<[promise task := r]> (futures s)) s)) /\
    r = match bound task with
        | Returns v => HasValue v
        | Throws e => HasException e
        end.
Proof. intros H. unfold invoke. rewrite H. eauto. Qed.

Lemma fulfil_ran s k0 r :
  consistent s -> futures s !! k0 = Some NotReady -> r <> NotReady ->
  forall k,
    k ∈ k0 :: effects s ->
    is_Some (future_get (set_futures (<[k0 := r]> (futures s)) s) k).
Proof.
  intros Hc Hk0 Hr k. unfold future_get. simpl.
  destruct (decide (k = k0)) as [->|Hne].
  - rewrite list_lookup_insert_eq by (by eapply lookup_lt_Some).
    intros _. by destruct r.
  - rewrite list_lookup_insert_ne by done.
    intros [?|Hin]%elem_of_cons; [done|]. by apply (c_ran _ Hc).
Qed.

Lemma worker_step_consistent i s s' :
  consistent s -> worker_step i s = Some s' -> consistent s'.
Proof.
  intros Hc H. unfold worker_step in H. rewrite (c_alive _ Hc) in H.
  destruct (threads_ (pool s) !! i) as [t|] eqn:Hi; [|done].
  assert (Hlen : forall t', length (<[i := t']> (threads_ (pool s)))
                            = length (threads_ (pool s)))
    by (intros; apply length_insert).
  assert (Hthr : forall t' p,
             threads_ p = threads_ (pool s) -> threadNum_ p = threadNum_ (pool s) ->
             <[i := t']> (threads_ p) = [] \/
             length (<[i := t']> (threads_ p)) = threadNum_ p).
  { intros t' p -> ->. rewrite Hlen. destruct (c_threads _ Hc) as [Hnil|]; [|by right].
    rewrite Hnil in Hi. done. }
  assert (Hmove : forall t' x,
             tasks_ (pool x) = tasks_ (pool s) ->
             threads_ (pool x) = threads_ (pool s) ->
             held t' ⊆+ held t -> owned t' ⊆+ owned t ->
             envelopes (set_thread i t' x) ⊆+ envelopes s /\
             pending (set_thread i t' x) ⊆+ pending s)
    by (intros; by eapply lists_set_thread).
  destruct t; simplify_eq.
  - (* AtWhile *)
    destruct (Hmove (if isTerminate (pool s) then Finished else AtGet) s)
      as [He Hp]; try done; try (by destruct (isTerminate (pool s))).
    apply (consistent_frame s); simpl; try done; try apply Hc; auto.
  - (* AtGet *)
    destruct (get (pool s)) as [[[t|] p']|] eqn:Hget; simplify_eq.
    + apply get_inv in Hget as (Hb & q & Hq & ->).
      destruct (in_hand_split _ _ _ Hi) as (rest & Hh & Hh').
      destruct (in_grip_split _ _ _ Hi) as (resto & Hg & Hg').
      apply (consistent_frame s); simpl; try done; try apply Hc.
      * unfold envelopes, queued, in_grip. simpl. rewrite Hq, Hg, Hg'. simpl.
        by rewrite <- Permutation_middle.
      * unfold pending, queued, in_hand. simpl. rewrite Hq, Hh, Hh'. simpl.
        by rewrite <- Permutation_middle.
      * by apply Hthr.
    + apply get_inv in Hget as (-> & Hb).
      destruct (Hmove AtWhile s) as [He Hp]; try done.
      apply (consistent_frame s); simpl; try done; try apply Hc; auto.
  - (* AtInc *)
    destruct (Hmove (AtTry task)
                (with_pool (fun p => set_atomic (to_int (atomic_ p + 1)) p) s))
      as [He Hp]; try done.
    apply (consistent_frame s); simpl; try done; try apply Hc; auto.
  - (* AtTry *)
    destruct (pending_set_thread s i (AtTry task) (AtDec task) Hi)
      as (rest & Hp & Hp').
    destruct (expired (pool s) task); simplify_eq.
    + destruct (Hmove (AtDec task) s) as [He Hpe]; try done;
        try apply submseteq_nil_l.
      apply (consistent_frame s); simpl; try done; try apply Hc; auto.
    + assert (Hk : futures s !! promise (_func task) = Some NotReady).
      { apply (c_fresh _ Hc). rewrite Hp. simpl. left. }
      destruct (invoke_pending s _ Hk) as (r & Hinv & Hr). rewrite Hinv in H.
      simplify_eq.
      assert (Hrun : task_id task ∈ pending s) by (rewrite Hp; simpl; left).
      pose proof (pending_nodup _ Hc) as Hnd. rewrite Hp in Hnd. simpl in Hnd.
      apply NoDup_cons in Hnd as [Hnotin _].
      destruct (Hmove (AtDec task) s) as [He Hpe]; try done;
        try apply submseteq_nil_l.
      apply (consistent_frame s); simpl; try done; try apply Hc; auto.
      * intros k Hk'. apply list_lookup_insert_ne. intros <-.
        apply Hnotin. unfold set_thread in Hp'. simpl in Hp'.
        unfold pending in *. simpl in *. by rewrite <- Hp'.
      * apply (fulfil_ran s _ _ Hc Hk). by destruct (bound (_func task)).
      * constructor; [|apply Hc]. by apply pending_not_run.
      * by rewrite length_insert.
  - (* AtDec *)
    destruct (Hmove (AtNotify task)
                (with_pool (fun p => set_atomic (to_int (atomic_ p - 1)) p) s))
      as [He Hp]; try done.
    apply (consistent_frame s); simpl; try done; try apply Hc; auto.
  - (* AtNotify *)
    destruct (drained (pool s)).
    + destruct (Hmove (AtEnd task) (set_signals (S (signals s)) s))
        as [He Hp]; try done.
      apply (consistent_frame s); simpl; try done; try apply Hc; auto.
    + destruct (Hmove (AtEnd task) s) as [He Hp]; try done.
      apply (consistent_frame s); simpl; try done; try apply Hc; auto.
  - (* AtEnd *)
    destruct (abandon_frame (_func task) s) as (Epool & Eeff & Eab & _ & Elen).
    destruct (Hmove AtWhile (abandon (_func task) s)) as [He Hp];
      try (by rewrite Epool); try apply submseteq_nil_l.
    destruct (envelopes_set_thread s i (AtEnd task) AtWhile Hi)
      as (rest & Henv & Henv').
    pose proof (c_nodup _ Hc) as Hnd. rewrite Henv in Hnd. simpl in Hnd.
    apply NoDup_cons in Hnd as [Hnotin _].
    apply (consistent_frame s); simpl; rewrite ?Epool, ?Eeff, ?Eab, ?Elen;
      try done; try apply Hc; auto.
    + intros k Hk. apply abandon_other. intros ->. apply Hnotin.
      apply (elem_of_submseteq _ _ _ Hk) in Hp.
      assert (Hin : promise (_func task) ∈ envelopes (set_thread i AtWhile s)).
      { apply (elem_of_submseteq (pending (set_thread i AtWhile s)));
          [|apply pending_envelopes].
        revert Hk. unfold pending, set_thread, with_pool. simpl.
        by rewrite Epool. }
      by rewrite Henv' in Hin.
    + intros k Hk. apply (c_ran _ Hc) in Hk as [v Hv].
      exists v. by apply abandon_ready.
Qed.

(** * Shutdown *)

Ltac invert_get :=
  match goal with
  | H : get _ = Some (Some _, _) |- _ =>
      apply get_inv in H as (? & ? & ? & ->)
  | H : get _ = Some (None, _) |- _ =>
      apply get_inv in H as (-> & ?)
  end.

(** What a worker step never touches. *)
Lemma worker_step_frame i s s' :
  worker_step i s = Some s' ->
  bTerminate_ (pool s') = bTerminate_ (pool s) /\
  threadNum_ (pool s') = threadNum_ (pool s) /\
  TNOWMS (pool s') = TNOWMS (pool s) /\
  clock s' = clock s /\
  length (threads_ (pool s')) = length (threads_ (pool s)) /\
  length (futures s') = length (futures s) /\
  forall j, j <> i -> threads_ (pool s') !! j = threads_ (pool s) !! j.
Proof.
  unfold worker_step, invoke. intros H.
  repeat case_match; simplify_eq; try invert_get; simpl;
    rewrite ?abandon_pool, ?abandon_clock, ?abandon_length, ?length_insert;
    repeat split; try done;
    try (intros j Hj; by rewrite list_lookup_insert_ne).
Qed.

(** Once the shutdown flag is set no worker takes a task off the queue. *)
Lemma worker_step_keeps_queue i s s' :
  bTerminate_ (pool s) = true ->
  worker_step i s = Some s' ->
  tasks_ (pool s') = tasks_ (pool s).
Proof.
  unfold worker_step, invoke. intros Hb H.
  repeat case_match; simplify_eq; try invert_get; simpl;
    rewrite ?abandon_pool; congruence.
Qed.

Lemma distance_bound t : distance t <= join_fuel.
Proof. destruct t; simpl; unfold join_fuel; lia. Qed.

Lemma worker_step_progress i s t :
  consistent s ->
  bTerminate_ (pool s) = true ->
  threads_ (pool s) !! i = Some t ->
  t <> Finished ->
  exists s' t',
    worker_step i s = Some s' /\
    threads_ (pool s') !! i = Some t' /\
    distance t' < distance t.
Proof.
  intros Hc Hb Hi Hne. pose proof (lookup_lt_Some _ _ _ Hi) as Hlt.
  unfold worker_step. rewrite (c_alive _ Hc), Hi.
  destruct t; try done.
  - unfold isTerminate. rewrite Hb. eexists _, _. split; [done|].
    simpl. rewrite list_lookup_insert_eq by done. split; [done|simpl; lia].
  - rewrite (get_terminating _ Hb). eexists _, _. split; [done|].
    simpl. rewrite list_lookup_insert_eq by done. split; [done|simpl; lia].
  - eexists _, _. split; [done|].
    simpl. rewrite list_lookup_insert_eq by done. split; [done|simpl; lia].
  - destruct (expired (pool s) task).
    + eexists _, _. split; [done|].
      simpl. rewrite list_lookup_insert_eq by done. split; [done|simpl; lia].
    + assert (Hk : futures s !! promise (_func task) = Some NotReady).
      { apply (c_fresh _ Hc). unfold pending, in_hand.
        apply elem_of_app. right. apply list_elem_of_bind.
        exists (AtTry task). split; [simpl; left|].
        by eapply list_elem_of_lookup_2. }
      destruct (invoke_pending s _ Hk) as (r & -> & _).
      eexists _, _. split; [done|].
      simpl. rewrite list_lookup_insert_eq by done. split; [done|simpl; lia].
  - eexists _, _. split; [done|].
    simpl. rewrite list_lookup_insert_eq by done. split; [done|simpl; lia].
  - eexists _, _. split; [done|].
    destruct (drained (pool s)); simpl;
      (rewrite list_lookup_insert_eq by done); (split; [done|simpl; lia]).
  - eexists _, _. split; [done|].
    simpl. rewrite abandon_pool, list_lookup_insert_eq by done.
    split; [done|simpl; lia].
Qed.

(** Whatever every worker step preserves, joining preserves. *)
Lemma join_preserves (P : State -> Prop) :
  (forall i s s', P s -> worker_step i s = Some s' -> P s') ->
  forall fuel i s s', P s -> join fuel i s = Some s' -> P s'.
Proof.
  intros HP fuel. induction fuel as [|fuel IH]; intros i s s' Hs; simpl.
  - destruct (threads_ (pool s) !! i) as [[]|]; intros Hj; by simplify_eq.
  - destruct (threads_ (pool s) !! i) as [[]|]; try (intros Hj; by simplify_eq);
      (destruct (worker_step i s) as [s1|] eqn:Hstep; simpl; [|done]);
      intros Hj; apply (IH i s1 s'); eauto.
Qed.

Lemma join_all_preserves (P : State -> Prop) :
  (forall i s s', P s -> worker_step i s = Some s' -> P s') ->
  forall fuel idx s s', P s -> join_all fuel idx s = Some s' -> P s'.
Proof.
  intros HP fuel idx. induction idx as [|i idx IH]; intros s s' Hs; simpl.
  - by intros; simplify_eq.
  - destruct (join fuel i s) as [s1|] eqn:Hj; simpl; [|done].
    intros H. eapply IH; [|done]. eapply join_preserves; eauto.
Qed.

Lemma shutting_down_step q n i s s' :
  shutting_down q n s -> worker_step i s = Some s' -> shutting_down q n s'.
Proof.
  intros (Hc & Hb & Hq & Hn) H.
  destruct (worker_step_frame _ _ _ H) as (Hb' & _ & _ & _ & Hlen & _).
  split; [|split; [|split]].
  - by eapply worker_step_consistent.
  - congruence.
  - rewrite <- Hq. by eapply worker_step_keeps_queue.
  - congruence.
Qed.

Lemma join_returns fuel i s t :
  consistent s -> bTerminate_ (pool s) = true ->
  threads_ (pool s) !! i = Some t ->
  distance t <= fuel ->
  exists s', join fuel i s = Some s'.
Proof.
  revert s t. induction fuel as [|fuel IH]; intros s t Hc Hb Hi Hd.
  - destruct t; simpl in Hd; try lia. simpl. rewrite Hi. eauto.
  - assert (t = Finished \/ t <> Finished) as [->|Hne]
      by (destruct t; auto; by right).
    { simpl. rewrite Hi. eauto. }
    destruct (worker_step_progress i s t Hc Hb Hi Hne) as (s1 & t1 & Hstep & Hi1 & Hlt).
    assert (Hj : join (S fuel) i s = join fuel i s1).
    { simpl. rewrite Hi, Hstep. by destruct t. }
    rewrite Hj. eapply (IH s1 t1); eauto.
    + by eapply worker_step_consistent.
    + destruct (worker_step_frame _ _ _ Hstep) as (Hb' & _). congruence.
    + lia.
Qed.

Lemma join_all_returns q n idx s :
  shutting_down q n s ->
  Forall (fun i => i < n) idx ->
  exists s', join_all join_fuel idx s = Some s' /\ shutting_down q n s'.
Proof.
  revert s. induction idx as [|i idx IH]; intros s Hs Hidx; cbn [join_all].
  - eauto.
  - apply Forall_cons in Hidx as [Hi Hidx].
    destruct Hs as (Hc & Hb & Hq & Hn).
    destruct (lookup_lt_is_Some_2 (threads_ (pool s)) i) as [t Ht]; [lia|].
    destruct (join_returns join_fuel i s t Hc Hb Ht (distance_bound t))
      as [s1 Hj].
    rewrite Hj. simpl. apply IH; [|done].
    eapply (join_preserves (shutting_down q n)); eauto using shutting_down_step.
    by split; [|split; [|split]].
Qed.

Lemma set_flag_consistent s :
  consistent s -> consistent (with_pool (set_bTerminate true) s).
Proof.
  intros Hc. apply (consistent_frame s); simpl; try done; apply Hc.
Qed.

Lemma clear_threads_consistent s :
  consistent s -> consistent (with_pool (set_threads []) s).
Proof.
  intros Hc. apply (consistent_frame s); simpl; try done; try apply Hc.
  - unfold envelopes, in_grip. simpl.
    apply submseteq_skips_l, submseteq_nil_l.
  - unfold pending, in_hand. simpl. apply submseteq_skips_l, submseteq_nil_l.
  - by left.
Qed.

(** [terminate] returns, with the queue it found and no worker left. *)
Lemma terminate_returns s :
  consistent s ->
  exists s',
    terminate s = Some s' /\ consistent s' /\
    threads_ (pool s') = [] /\ bTerminate_ (pool s') = true /\
    tasks_ (pool s') = tasks_ (pool s).
Proof.
  intros Hc. unfold terminate. rewrite (c_alive _ Hc).
  set (s1 := with_pool (set_bTerminate true) s).
  assert (Hs1 : shutting_down (tasks_ (pool s))
                  (length (threads_ (pool s1))) s1).
  { split; [by apply set_flag_consistent|done]. }
  destruct (join_all_returns _ _ (seq 0 (length (threads_ (pool s1)))) s1 Hs1)
    as (s2 & -> & Hc2 & Hb2 & Hq2 & _).
  { apply Forall_forall. intros i Hi%elem_of_seq. lia. }
  simpl. eexists. split; [done|].
  split; [by apply clear_threads_consistent|done].
Qed.

(** A call that finds no worker only sets the flag. *)
Lemma terminate_no_threads s :
  aborted s = false -> threads_ (pool s) = [] ->
  terminate s = Some (with_pool (set_bTerminate true) s).
Proof.
  intros Ha Hths. unfold terminate. rewrite Ha. simpl. rewrite Hths. simpl.
  destruct s as [[] ?]; simpl in *. by subst.
Qed.

Lemma terminate_fixpoint s :
  aborted s = false -> threads_ (pool s) = [] -> bTerminate_ (pool s) = true ->
  terminate s = Some s.
Proof.
  intros Ha Hths Hb. rewrite terminate_no_threads by done.
  destruct s as [[] ?]; simpl in *. by subst.
Qed.

(** * Every reachable state is consistent *)

Lemma step_consistent e s s' :
  consistent s -> step e s = Some s' -> consistent s'.
Proof.
  intros Hc. unfold step. rewrite (c_alive _ Hc).
  destruct e; intros H; simplify_eq.
  - by apply init_consistent.
  - by apply start_consistent.
  - by apply exec_consistent.
  - destruct (terminate_returns s Hc) as (s1 & Ht & Hc1 & _). congruence.
  - by eapply worker_step_consistent.
  - by apply clock_consistent.
Qed.

Lemma run_consistent evs s s' :
  consistent s -> run evs s = Some s' -> consistent s'.
Proof.
  revert s. induction evs as [|e evs IH]; intros s Hc; simpl.
  - by intros; simplify_eq.
  - destruct (step e s) as [s1|] eqn:Hstep; simpl; [|done].
    apply IH. by eapply step_consistent.
Qed.

Lemma reachable_consistent s : reachable s -> consistent s.
Proof.
  intros (now & evs & Hrun).
  eapply run_consistent; [apply new_process_consistent|done].
Qed.

(** * Submission *)

Lemma exec_appends timeoutMs f s :
  tasks_ (pool (snd (exec timeoutMs f s)))
  = tasks_ (pool s) ++ [envelope timeoutMs f s].
Proof. reflexivity. Qed.

Lemma exec_future timeoutMs f s :
  fst (exec timeoutMs f s) = length (futures s) /\
  futures (snd (exec timeoutMs f s)) !! fst (exec timeoutMs f s)
  = Some NotReady.
Proof. split; [done|]. simpl. by apply list_lookup_middle. Qed.

(** The constructor's reading of the clock is never refreshed. *)
Lemma terminate_TNOWMS s s' :
  terminate s = Some s' -> TNOWMS (pool s') = TNOWMS (pool s).
Proof.
  unfold terminate. destruct (aborted s); [done|].
  destruct (join_all _ _ _) as [s2|] eqn:Hj; simpl; [|done].
  intros H. simplify_eq. simpl.
  apply (join_all_preserves (fun x => TNOWMS (pool x) = TNOWMS (pool s)))
    in Hj; try done.
  intros i x x' Hx Hstep.
  destruct (worker_step_frame _ _ _ Hstep) as (_ & _ & Ht & _). congruence.
Qed.

Lemma step_TNOWMS e s s' :
  step e s = Some s' -> TNOWMS (pool s') = TNOWMS (pool s).
Proof.
  unfold step. destruct (aborted s); [done|].
  destruct e; intros H; simplify_eq; simpl; try done.
  - unfold init. by destruct (is_nil _).
  - unfold start. by destruct (is_nil _).
  - by apply terminate_TNOWMS.
  - by destruct (worker_step_frame _ _ _ H) as (_ & _ & Ht & _).
Qed.

Lemma run_TNOWMS evs s s' :
  run evs s = Some s' -> TNOWMS (pool s') = TNOWMS (pool s).
Proof.
  revert s. induction evs as [|e evs IH]; intros s; simpl.
  - by intros; simplify_eq.
  - destruct (step e s) as [s1|] eqn:Hstep; simpl; [|done].
    intros H. rewrite (IH _ H). by eapply step_TNOWMS.
Qed.

(** Whatever the clock reads when [exec] is called, the stored expiry is
    computed from the time at which the pool was constructed. *)
Lemma exec_expiry_from_construction now evs s timeoutMs f :
  run evs (new_process now) = Some s ->
  _expireTime (envelope timeoutMs f s)
  = to_int64 (to_uint64
      (if (timeoutMs =? 0)%Z then 0%Z
       else to_int64 (getNowMs now + timeoutMs))).
Proof. intros H. unfold envelope. simpl. by rewrite (run_TNOWMS _ _ _ H). Qed.

(** * Tasks submitted after shutdown *)

Lemma abandoned_worker_step k i s s' :
  abandoned k s -> worker_step i s = Some s' -> abandoned k s'.
Proof.
  intros (Hb & Hf & He & Hh & Hq) H.
  pose proof (worker_step_keeps_queue _ _ _ Hb H) as Hq'.
  destruct (worker_step_frame _ _ _ H) as (Hb' & _).
  unfold worker_step in H. destruct (aborted s); [done|].
  destruct (threads_ (pool s) !! i) as [t|] eqn:Hi; [|done].
  destruct (in_grip_split _ _ _ Hi) as (rest & Hp & Hp').
  unfold in_grip in Hh. rewrite Hp in Hh.
  assert (Hkeep : forall t' x,
             threads_ (pool x) = <[i := t']> (threads_ (pool s)) ->
             owned t' ⊆ owned t -> k ∉ in_grip (pool x)).
  { intros t' x Hx Hsub. unfold in_grip. rewrite Hx, Hp'.
    intros [Hin|Hin]%elem_of_app; apply Hh, elem_of_app; auto. }
  unfold abandoned. rewrite Hb', Hb. unfold queued. rewrite Hq'.
  destruct t; simplify_eq.
  - split_and!; try done. eapply Hkeep; [done|]. by destruct (isTerminate _).
  - rewrite (get_terminating _ Hb) in H. simplify_eq.
    split_and!; try done. by eapply Hkeep.
  - split_and!; try done. by eapply Hkeep.
  - assert (Hne : task_id task <> k).
    { intros <-. apply Hh. simpl. left. }
    destruct (expired (pool s) task); simplify_eq.
    + split_and!; try done. by eapply Hkeep.
    + unfold invoke in H.
      destruct (futures s !! promise (_func task)) as [[]|]; simplify_eq;
        try (split_and!; try done; unfold in_grip; simpl; by rewrite Hp).
      split_and!; try done.
      * simpl. by rewrite list_lookup_insert_ne.
      * simpl. apply not_elem_of_cons. split; [|done]. by intros ->.
      * by eapply Hkeep.
  - split_and!; try done. by eapply Hkeep.
  - destruct (drained (pool s)); simplify_eq;
      (split_and!; try done; by eapply Hkeep).
  - assert (Hne : k <> promise (_func task)).
    { intros ->. apply Hh. simpl. left. }
    split_and!; try done.
    + simpl. by rewrite abandon_other.
    + simpl. by rewrite abandon_effects.
    + eapply Hkeep; [simpl; by rewrite abandon_pool|]. apply list_subseteq_nil.
Qed.

Lemma abandoned_step k e s s' :
  abandoned k s -> step e s = Some s' -> abandoned k s'.
Proof.
  intros Hk. pose proof Hk as (Hb & Hf & He & Hh & Hq).
  unfold step. destruct (aborted s) eqn:Ha; [done|].
  destruct e; intros H; simplify_eq.
  - unfold abandoned, with_pool, init, in_grip, queued.
    by destruct (is_nil (threads_ (pool s))).
  - unfold abandoned, with_pool, start, in_grip, queued.
    destruct (threads_ (pool s)) as [|t ths] eqn:Hths; simpl; [|done].
    rewrite spawn_app. simpl. rewrite owned_replicate.
    repeat split; try done. apply not_elem_of_nil.
  - unfold abandoned, in_grip, queued. simpl.
    split; [done|]. split.
    { rewrite lookup_app_l; [done|]. by eapply lookup_lt_Some. }
    split; [done|]. split; [done|].
    rewrite fmap_app. apply elem_of_app. by left.
  - unfold terminate in H. rewrite Ha in H.
    destruct (join_all _ _ _) as [s2|] eqn:Hj; simpl in H; simplify_eq.
    apply (join_all_preserves (abandoned k)) in Hj;
      [|by eauto using abandoned_worker_step|done].
    destruct Hj as (Hb2 & Hf2 & He2 & Hh2 & Hq2).
    repeat split; try done. unfold in_grip. simpl. apply not_elem_of_nil.
  - by eapply abandoned_worker_step.
  - done.
Qed.

Lemma abandoned_run k evs s s' :
  abandoned k s -> run evs s = Some s' -> abandoned k s'.
Proof.
  revert s. induction evs as [|e evs IH]; intros s Hk; simpl.
  - by intros; simplify_eq.
  - destruct (step e s) as [s1|] eqn:Hstep; simpl; [|done].
    apply IH. by eapply abandoned_step.
Qed.

Lemma exec_abandoned timeoutMs f s :
  consistent s -> bTerminate_ (pool s) = true ->
  abandoned (fst (exec timeoutMs f s)) (snd (exec timeoutMs f s)).
Proof.
  intros Hc Hb. split; [done|]. split; [apply exec_future|].
  split; [|split].
  - simpl. intros Hin. apply (effects_lt _ _ Hc) in Hin. lia.
  - simpl. intros Hin.
    assert (Hp : length (futures s) ∈ envelopes s)
      by (apply elem_of_app; by right).
    apply (c_alloc _ Hc) in Hp. lia.
  - unfold queued. rewrite exec_appends, fmap_app. apply elem_of_app.
    right. simpl. left.
Qed.

Lemma after_reachable evs :
  run evs (new_process at_1000ms) <> None -> reachable (after evs).
Proof.
  intros H. exists at_1000ms, evs. unfold after.
  by destruct (run evs _).
Qed.

Lemma run_worker i evs s s1 :
  aborted s = false -> worker_step i s = Some s1 ->
  run (Worker i :: evs) s = run evs s1.
Proof. intros Ha H. simpl. unfold step. by rewrite Ha, H. Qed.

(** A worker that has handled a task is back at the head of its loop three
    actions later: it decrements the counter, signals if the pool is
    drained, and destroys the envelope. *)
Lemma back_to_loop i s t :
  aborted s = false -> threads_ (pool s) !! i = Some (AtDec t) ->
  exists s', run [Worker i; Worker i; Worker i] s = Some s' /\
             threads_ (pool s') !! i = Some AtWhile /\
             tasks_ (pool s') = tasks_ (pool s) /\
             aborted s' = false.
Proof.
  intros Ha Hi. pose proof (lookup_lt_Some _ _ _ Hi) as Hlt.
  set (s1 := set_thread i (AtNotify t)
               (with_pool (fun p => set_atomic (to_int (atomic_ p - 1)) p) s)).
  set (s2 := set_thread i (AtEnd t)
               (if drained (pool s1) then set_signals (S (signals s1)) s1
                else s1)).
  set (s3 := set_thread i AtWhile (abandon (_func t) s2)).
  assert (H1 : worker_step i s = Some s1).
  { unfold worker_step. by rewrite Ha, Hi. }
  assert (Ha1 : aborted s1 = false) by done.
  assert (Hi1 : threads_ (pool s1) !! i = Some (AtNotify t)).
  { simpl. by apply list_lookup_insert_eq. }
  assert (H2 : worker_step i s1 = Some s2).
  { unfold worker_step. by rewrite Ha1, Hi1. }
  assert (Ha2 : aborted s2 = false).
  { subst s2. by destruct (drained (pool s1)). }
  assert (Hlen2 : length (threads_ (pool s2)) = length (threads_ (pool s))).
  { subst s2. destruct (drained (pool s1)); simpl;
      by rewrite !length_insert. }
  assert (Hi2 : threads_ (pool s2) !! i = Some (AtEnd t)).
  { subst s2. destruct (drained (pool s1)); simpl;
      apply list_lookup_insert_eq; by rewrite length_insert. }
  assert (H3 : worker_step i s2 = Some s3).
  { unfold worker_step. by rewrite Ha2, Hi2. }
  exists s3. split; [|split; [|split]].
  - by rewrite (run_worker _ _ _ _ Ha H1), (run_worker _ _ _ _ Ha1 H2),
      (run_worker _ _ _ _ Ha2 H3).
  - subst s3. simpl. rewrite abandon_pool.
    apply list_lookup_insert_eq. lia.
  - subst s3. simpl. rewrite abandon_pool.
    subst s2. by destruct (drained (pool s1)).
  - subst s3. simpl. by rewrite abandon_aborted.
Qed.

(** * C1: the expiry stored by [exec] *)

(** C1 (the code departs from it).  The claim wants the stored expiry of a
    task with a non-zero timeout to be the clock's reading at the call plus
    the timeout.  A pool constructed when the clock reads 1000 ms and asked
    at 5000 ms to run a task with a 50 ms timeout stores 1050, not 5050:
    [TNOWMS] is a constant member read once by the constructor. *)
Theorem C1_exec_expiry_uses_cached_clock :
  getNowMs (clock late_submit) = 5000%Z /\
  TNOWMS (pool late_submit) = 1000%Z /\
  _expireTime <$> tasks_ (pool (snd (exec 50 (Returns 7) late_submit)))
  = [1050%Z] /\
  _expireTime (envelope 50 (Returns 7) late_submit)
  <> (getNowMs (clock late_submit) + 50)%Z.
Proof. split_and!; by_evaluation. Qed.

(** * C2: overdue tasks *)

(** C2 (the code departs from it).  A task submitted with a 50 ms timeout
    at 1000 ms is dequeued when the clock reads 5000 ms, long after its
    deadline of 1050 ms.  The worker compares the deadline with [TNOWMS],
    which still holds 1000, finds the task not expired, calls it and
    fulfils its future with the value. *)
Theorem C2_overdue_task_is_executed :
  exists t s',
    threads_ (pool (after overdue_events)) !! 0 = Some (AtTry t) /\
    _expireTime t = 1050%Z /\
    getNowMs (clock (after overdue_events)) = 5000%Z /\
    expired (pool (after overdue_events)) t = false /\
    worker_step 0 (after overdue_events) = Some s' /\
    future_get s' (task_id t) = Some (inl 7%Z) /\
    effects s' = [task_id t].
Proof.
  exists (envelope 50 (Returns 7) (new_process at_1000ms)).
  exists_result (worker_step 0 (after overdue_events)).
  split_and!; by_evaluation.
Qed.

(** * C3: [waitForAllDone] *)

(** C3 (the code departs from it).  With the queue empty and one task in
    flight ([atomic_ = 1], its callable not yet run) [waitForAllDone(0)] and
    [waitForAllDone(-1)] return [true] at once, although the condition
    under which a worker signals the end of the work, [drained], is false:
    [waitForAllDone] only looks at the queue. *)
Theorem C3_waitForAllDone_ignores_in_flight :
  let p := pool (after in_flight_events) in
  tasks_ p = [] /\ atomic_ p = 1%Z /\
  effects (after in_flight_events) = [] /\
  drained p = false /\
  waitForAllDone 0 Called p = Some true /\
  waitForAllDone (-1) Called p = Some true.
Proof. split_and!; by_evaluation. Qed.

(** * C4: when a worker leaves its loop *)

(** C4 as stated fails: with the flag set and a task still queued, [get]
    returns [false] and the worker leaves [run], the queue being non-empty
    before and after.  This happens to a worker that [terminate] interrupts
    between two tasks, and to a worker started on a terminated pool on which
    a task has been submitted. *)
Lemma C4_counterexample :
  (exists s',
     tasks_ (pool flagged_with_work) <> [] /\
     get (pool flagged_with_work) = Some (None, pool flagged_with_work) /\
     worker_step 0 flagged_with_work = Some s' /\
     threads_ (pool s') !! 0 = Some Finished /\
     tasks_ (pool s') <> []) /\
  (exists s s',
     run [CallExec 0 (Returns 7); CallTerminate; CallStart]
       (new_process at_1000ms) = Some s /\
     tasks_ (pool s) <> [] /\
     get (pool s) = Some (None, pool s) /\
     worker_step 0 s = Some s' /\
     threads_ (pool s') !! 0 = Some Finished /\
     tasks_ (pool s') <> []).
Proof.
  split.
  - exists_result (worker_step 0 flagged_with_work).
    split_and!; by_evaluation.
  - exists_result (run [CallExec 0 (Returns 7); CallTerminate; CallStart]
                     (new_process at_1000ms)).
    exists_result (run [CallExec 0 (Returns 7); CallTerminate; CallStart;
                        Worker 0] (new_process at_1000ms)).
    split_and!; by_evaluation.
Qed.

(** C4, amended.  [get] tells its caller to stop exactly when the shutdown
    flag is set, whether or not tasks are queued; without the flag it
    returns the front task of a non-empty queue and waits on an empty one.
    A worker leaves [run] only from the head of its loop and only when the
    flag is set; while the flag is clear every action it takes keeps it in
    the loop, and having handled a task it is back at the head of the loop
    three actions later. *)
Theorem C4_worker_leaves_only_on_flag :
  (forall p, bTerminate_ p = true -> get p = Some (None, p)) /\
  (forall p t q, bTerminate_ p = false -> tasks_ p = t :: q ->
     get p = Some (Some t, set_tasks q p)) /\
  (forall p, bTerminate_ p = false -> tasks_ p = [] -> get p = None) /\
  (forall i s s', worker_step i s = Some s' ->
     threads_ (pool s') !! i = Some Finished ->
     bTerminate_ (pool s) = true /\ threads_ (pool s) !! i = Some AtWhile) /\
  (forall i s t, aborted s = false ->
     threads_ (pool s) !! i = Some (AtDec t) ->
     exists s', run [Worker i; Worker i; Worker i] s = Some s' /\
                threads_ (pool s') !! i = Some AtWhile /\
                tasks_ (pool s') = tasks_ (pool s)).
Proof.
  split_and!.
  - apply get_terminating.
  - apply get_front.
  - apply get_waits.
  - intros i s s' H Hfin.
    pose proof (lookup_lt_Some _ _ _ Hfin) as Hlt.
    destruct (worker_step_frame _ _ _ H) as (_ & _ & _ & _ & Hlen & _).
    rewrite Hlen in Hlt.
    unfold worker_step in H. destruct (aborted s); [done|].
    destruct (threads_ (pool s) !! i) as [t|] eqn:Hi; [|done].
    destruct t; simplify_eq.
    + unfold isTerminate in Hfin. simpl in Hfin.
      rewrite list_lookup_insert_eq in Hfin by done.
      by destruct (bTerminate_ (pool s)).
    + destruct (get (pool s)) as [[[t|] p']|] eqn:Hget; simplify_eq;
        invert_get; simpl in Hfin;
        by rewrite list_lookup_insert_eq in Hfin.
    + simpl in Hfin. by rewrite list_lookup_insert_eq in Hfin.
    + destruct (expired (pool s) task); simplify_eq.
      * simpl in Hfin. by rewrite list_lookup_insert_eq in Hfin.
      * unfold invoke in H.
        destruct (futures s !! promise (_func task)) as [[]|]; simplify_eq;
          simpl in Hfin; try congruence;
          by rewrite list_lookup_insert_eq in Hfin.
    + simpl in Hfin. by rewrite list_lookup_insert_eq in Hfin.
    + destruct (drained (pool s)); simplify_eq; simpl in Hfin;
        by rewrite list_lookup_insert_eq in Hfin.
    + simpl in Hfin. rewrite abandon_pool in Hfin.
      by rewrite list_lookup_insert_eq in Hfin.
  - intros i s t Ha Hi.
    destruct (back_to_loop i s t Ha Hi) as (s' & Hrun & Hw & Hq & _).
    by exists s'.
Qed.

Lemma C4_witness :
  get (pool flagged_with_work) = Some (None, pool flagged_with_work) /\
  get (pool (after [CallExec 0 (Returns 10); CallExec 0 (Returns 20)]))
  = Some (Some (envelope 0 (Returns 10) (new_process at_1000ms)),
          set_tasks [envelope 0 (Returns 20)
                       (snd (exec 0 (Returns 10) (new_process at_1000ms)))]
            (pool (after [CallExec 0 (Returns 10); CallExec 0 (Returns 20)]))) /\
  get (pool (new_process at_1000ms)) = None /\
  (bTerminate_ (pool (after [CallExec 0 (Returns 7); CallTerminate; CallStart]))
   = true /\
   threads_ (pool (after [CallExec 0 (Returns 7); CallTerminate; CallStart]))
     !! 0 = Some AtWhile) /\
  (exists s',
     run [Worker 0; Worker 0; Worker 0]
       (after (in_flight_events ++ [Worker 0])) = Some s' /\
     threads_ (pool s') !! 0 = Some AtWhile /\
     tasks_ (pool s') = tasks_ (pool (after (in_flight_events ++ [Worker 0])))).
Proof.
  destruct C4_worker_leaves_only_on_flag as (H1 & H2 & H3 & H4 & H5).
  split; [|split; [|split; [|split]]].
  - apply H1. by_evaluation.
  - apply H2; by_evaluation.
  - apply H3; by_evaluation.
  - apply (H4 0 (after [CallExec 0 (Returns 7); CallTerminate; CallStart])
             (after [CallExec 0 (Returns 7); CallTerminate; CallStart;
                     Worker 0])); by_evaluation.
  - apply (H5 0 _ (envelope 0 (Returns 7) (new_process at_1000ms)));
      by_evaluation.
Defined.

(** * C5: the queue after [terminate] *)

(** C5 as stated fails: [terminate] called with one task queued and the
    worker idle returns with that task still queued. *)
Lemma C5_counterexample :
  exists s',
    terminate (after one_done_events) = Some s' /\
    getJobNum (pool s') = 1 /\
    getJobNum (pool s') <> 0.
Proof.
  exists_result (terminate (after one_done_events)).
  split_and!; by_evaluation.
Qed.

(** C5, amended.  [terminate] does not touch the task queue: from every
    reachable state it returns, and the pending tasks are then exactly
    those it found, so [getJobNum()] is unchanged (and is 0 only if the
    queue was already empty). *)
Theorem C5_terminate_keeps_queue s :
  reachable s ->
  exists s',
    terminate s = Some s' /\
    tasks_ (pool s') = tasks_ (pool s) /\
    getJobNum (pool s') = getJobNum (pool s).
Proof.
  intros Hr. apply reachable_consistent in Hr.
  destruct (terminate_returns s Hr) as (s' & Ht & _ & _ & _ & Hq).
  exists s'. unfold getJobNum. rewrite Hq. done.
Qed.

Lemma C5_witness :
  exists s',
    terminate (after one_done_events) = Some s' /\
    tasks_ (pool s') = tasks_ (pool (after one_done_events)) /\
    getJobNum (pool s') = getJobNum (pool (after one_done_events)).
Proof.
  apply (C5_terminate_keeps_queue (after one_done_events)).
  apply after_reachable. by_evaluation.
Defined.

(** * C6: [terminate] twice *)

(** C6.  From every reachable state [terminate] returns with no worker left
    and the flag set; called again it returns at once and changes nothing.
    The destructor run after an explicit call returns as well: its own call
    of [terminate] changes nothing, after which the members are destroyed,
    the pool still having no worker; with no task left in the queue the
    destructor leaves the process as it found it.  A call of [terminate]
    that finds no worker does nothing but set the flag. *)
Theorem C6_terminate_idempotent :
  (forall s, reachable s ->
     exists s1,
       terminate s = Some s1 /\
       getThreadNum (pool s1) = 0 /\
       bTerminate_ (pool s1) = true /\
       terminate s1 = Some s1 /\
       ThreadPool_delete s1 = Some (destroy_members s1) /\
       getThreadNum (pool (destroy_members s1)) = 0 /\
       (tasks_ (pool s1) = [] -> ThreadPool_delete s1 = Some s1)) /\
  (forall s, aborted s = false -> threads_ (pool s) = [] ->
     terminate s = Some (with_pool (set_bTerminate true) s)).
Proof.
  split.
  - intros s Hr. apply reachable_consistent in Hr.
    destruct (terminate_returns s Hr) as (s1 & Ht & Hc1 & Hths & Hb & _).
    assert (Hfix : terminate s1 = Some s1)
      by (apply terminate_fixpoint; try done; apply Hc1).
    assert (Hpool : forall q, pool (abandon_all q s1) = pool s1).
    { intros q. generalize s1. induction q as [|t q IH]; intros x; simpl;
        [done|]. by rewrite IH, abandon_pool. }
    exists s1. unfold getThreadNum, ThreadPool_delete. rewrite Hths, Hfix.
    split_and!; try done.
    + unfold destroy_members. simpl. by rewrite Hpool, Hths.
    + intros Hq. simpl. f_equal. unfold destroy_members. rewrite Hq. simpl.
      destruct s1 as [[] ? ? ? ? ?]. simpl in *. by subst.
  - apply terminate_no_threads.
Qed.

Lemma C6_witness :
  (exists s1,
     terminate (after in_flight_events) = Some s1 /\
     getThreadNum (pool s1) = 0 /\
     bTerminate_ (pool s1) = true /\
     terminate s1 = Some s1 /\
     ThreadPool_delete s1 = Some (destroy_members s1) /\
     getThreadNum (pool (destroy_members s1)) = 0 /\
     (tasks_ (pool s1) = [] -> ThreadPool_delete s1 = Some s1)) /\
  terminate (new_process at_1000ms)
  = Some (with_pool (set_bTerminate true) (new_process at_1000ms)).
Proof.
  destruct C6_terminate_idempotent as (H1 & H2). split.
  - apply H1. apply after_reachable. by_evaluation.
  - apply H2; by_evaluation.
Defined.

(** * C7: the size of the worker vector *)

(** C7.  In every reachable state the worker vector is empty or has
    [threadNum_] entries.  On a pool without workers [init(k)] and then
    [start()] both succeed and leave exactly [k] workers; on a pool with
    workers both return [false] and change nothing. *)
Theorem C7_worker_vector_size :
  (forall s, reachable s ->
     threads_ (pool s) = [] \/ getThreadNum (pool s) = threadNum_ (pool s)) /\
  (forall k p, threads_ p = [] ->
     fst (init k p) = true /\
     fst (start (snd (init k p))) = true /\
     getThreadNum (snd (start (snd (init k p)))) = k /\
     threadNum_ (snd (start (snd (init k p)))) = k) /\
  (forall k p, threads_ p <> [] ->
     init k p = (false, p) /\ start p = (false, p)).
Proof.
  split_and!.
  - intros s Hr. apply reachable_consistent in Hr. apply (c_threads _ Hr).
  - intros k p Hths. unfold init, start, getThreadNum. rewrite Hths. simpl.
    rewrite Hths. simpl. rewrite spawn_length. done.
  - intros k p Hths. unfold init, start. by destruct (threads_ p).
Qed.

Lemma C7_witness :
  (threads_ (pool (after in_flight_events)) = [] \/
   getThreadNum (pool (after in_flight_events))
   = threadNum_ (pool (after in_flight_events))) /\
  (fst (init 3 (ThreadPool_new at_1000ms)) = true /\
   fst (start (snd (init 3 (ThreadPool_new at_1000ms)))) = true /\
   getThreadNum (snd (start (snd (init 3 (ThreadPool_new at_1000ms))))) = 3 /\
   threadNum_ (snd (start (snd (init 3 (ThreadPool_new at_1000ms))))) = 3) /\
  (init 5 (pool (after in_flight_events))
   = (false, pool (after in_flight_events)) /\
   start (pool (after in_flight_events))
   = (false, pool (after in_flight_events))).
Proof.
  destruct C7_worker_vector_size as (H1 & H2 & H3).
  split; [|split].
  - apply H1. apply after_reachable. by_evaluation.
  - apply H2. by_evaluation.
  - apply H3. by_evaluation.
Defined.

(** * C8: first in, first out *)

Lemma run_queue_conserves ops s :
  tasks_ (pool s) ++ submitted (run_queue ops s)
  = dequeued (run_queue ops s) ++ tasks_ (pool (final (run_queue ops s))).
Proof.
  revert s. induction ops as [|[timeoutMs f|] ops IH]; intros s;
    cbn [run_queue submitted dequeued final].
  - by rewrite app_nil_r.
  - rewrite <- IH, exec_appends, <- app_assoc. done.
  - destruct (get (pool s)) as [[[t|] p']|] eqn:Hget; try apply IH.
    invert_get. cbn [submitted dequeued final]. rewrite <- app_comm_cons, <- IH.
    simpl. match goal with H : tasks_ _ = _ |- _ => by rewrite H end.
Qed.

Lemma run_queue_app ops1 ops2 s :
  let r1 := run_queue ops1 s in
  let r2 := run_queue ops2 (final r1) in
  run_queue (ops1 ++ ops2) s
  = mkTrace (submitted r1 ++ submitted r2) (dequeued r1 ++ dequeued r2)
      (final r2).
Proof.
  revert s. induction ops1 as [|[timeoutMs f|] ops1 IH]; intros s;
    cbn [run_queue app submitted dequeued final].
  - by destruct (run_queue ops2 s).
  - by rewrite IH.
  - destruct (get (pool s)) as [[[t|] p']|];
      cbn [submitted dequeued final]; by rewrite ?IH.
Qed.

Lemma run_queue_submits (l : list (Z * outcome)) s :
  let r := run_queue ((fun x => Submit x.1 x.2) <$> l) s in
  dequeued r = [] /\
  tasks_ (pool (final r)) = tasks_ (pool s) ++ submitted r /\
  bTerminate_ (pool (final r)) = bTerminate_ (pool s) /\
  length (submitted r) = length l.
Proof.
  revert s. induction l as [|[timeoutMs f] l IH]; intros s;
    cbn [fmap list_fmap run_queue submitted dequeued final fst snd length].
  - by rewrite app_nil_r.
  - destruct (IH (snd (exec timeoutMs f s))) as (Hd & Hq & Hb & Hl).
    split_and!; try done.
    + rewrite Hq, exec_appends, <- app_assoc. done.
    + by rewrite Hl.
Qed.

Lemma run_queue_drains s :
  bTerminate_ (pool s) = false ->
  let r := run_queue (replicate (length (tasks_ (pool s))) Dequeue) s in
  submitted r = [] /\ dequeued r = tasks_ (pool s) /\
  tasks_ (pool (final r)) = [].
Proof.
  remember (tasks_ (pool s)) as q eqn:Hq. revert s Hq.
  induction q as [|t q IH]; intros s Hq Hb;
    cbn [length replicate run_queue submitted dequeued final]; [done|].
  rewrite (get_front (pool s) t q) by done.
  destruct (IH (with_pool (fun _ => set_tasks q (pool s)) s))
    as (Hs & Hd & Hf); try done.
  cbn [submitted dequeued final]. by rewrite Hs, Hd, Hf.
Qed.

(** C8.  [exec] puts the new envelope at the back of the queue, a
    successful [get] takes the front one, and in every program of
    submissions and dequeues the tasks come out in the order they went in:
    the old queue followed by the submissions is the dequeued sequence
    followed by what is still queued.  On a pool that is not shutting down
    and whose queue is empty, any submissions followed by as many dequeues
    return exactly the submitted envelopes, in the order of submission. *)
Theorem C8_dequeue_order_is_submission_order :
  (forall timeoutMs f s,
     tasks_ (pool (snd (exec timeoutMs f s)))
     = tasks_ (pool s) ++ [envelope timeoutMs f s]) /\
  (forall p t p', get p = Some (Some t, p') -> tasks_ p = t :: tasks_ p') /\
  (forall ops s,
     tasks_ (pool s) ++ submitted (run_queue ops s)
     = dequeued (run_queue ops s) ++ tasks_ (pool (final (run_queue ops s)))) /\
  (forall (l : list (Z * outcome)) s,
     bTerminate_ (pool s) = false -> tasks_ (pool s) = [] ->
     let r := run_queue (((fun x => Submit x.1 x.2) <$> l)
                           ++ replicate (length l) Dequeue) s in
     dequeued r = submitted r /\ length (dequeued r) = length l /\
     tasks_ (pool (final r)) = []).
Proof.
  split_and!.
  - apply exec_appends.
  - intros p t p' Hget. invert_get. simpl. congruence.
  - apply run_queue_conserves.
  - intros l s Hb Hq. cbv zeta. rewrite run_queue_app.
    cbn [submitted dequeued final].
    destruct (run_queue_submits l s) as (Hd & Hq' & Hb' & Hl).
    rewrite Hq in Hq'. simpl in Hq'.
    set (r1 := run_queue ((fun x => Submit x.1 x.2) <$> l) s) in *.
    assert (Hlen : length l = length (tasks_ (pool (final r1))))
      by (by rewrite Hq', Hl).
    rewrite Hlen.
    destruct (run_queue_drains (final r1)) as (Hs2 & Hd2 & Hf2);
      [congruence|].
    rewrite Hd, Hs2, Hd2, Hf2, app_nil_r. simpl. done.
Qed.

Lemma C8_witness :
  (tasks_ (pool (after [CallExec 0 (Returns 10); CallExec 0 (Returns 20)]))
   = envelope 0 (Returns 10) (new_process at_1000ms)
     :: tasks_ (set_tasks
         [envelope 0 (Returns 20)
            (snd (exec 0 (Returns 10) (new_process at_1000ms)))]
         (pool (after [CallExec 0 (Returns 10); CallExec 0 (Returns 20)])))) /\
  (let r := run_queue (((fun x => Submit x.1 x.2) <$> three_tasks)
                         ++ replicate (length three_tasks) Dequeue)
              (new_process at_1000ms) in
   dequeued r = submitted r /\ length (dequeued r) = length three_tasks /\
   tasks_ (pool (final r)) = []).
Proof.
  destruct C8_dequeue_order_is_submission_order as (_ & H2 & _ & H4). split.
  - apply H2. by_evaluation.
  - apply H4; by_evaluation.
Defined.

(** * C9: a task that throws *)

(** C9.  A worker is about to call a task whose callable throws [e].  The
    worker's action stores [e] in that task's shared state, so that [get] on
    its future rethrows [e]; no exception reaches [run], the process goes on
    and the worker is at [--atomic_], from where it returns to the head of
    its loop; the queue, the other workers, the other futures and the
    shutdown flag are as before. *)
Theorem C9_task_failure_is_local i s t e :
  reachable s ->
  threads_ (pool s) !! i = Some (AtTry t) ->
  expired (pool s) t = false ->
  bound (_func t) = Throws e ->
  exists s',
    worker_step i s = Some s' /\
    future_get s' (task_id t) = Some (inr e) /\
    aborted s' = false /\
    threads_ (pool s') !! i = Some (AtDec t) /\
    (exists s'', run [Worker i; Worker i; Worker i] s' = Some s'' /\
                 threads_ (pool s'') !! i = Some AtWhile /\
                 aborted s'' = false) /\
    tasks_ (pool s') = tasks_ (pool s) /\
    (forall j, j <> i -> threads_ (pool s') !! j = threads_ (pool s) !! j) /\
    (forall k, k <> task_id t -> futures s' !! k = futures s !! k) /\
    bTerminate_ (pool s') = bTerminate_ (pool s) /\
    getThreadNum (pool s') = getThreadNum (pool s).
Proof.
  intros Hr Hi Hexp Hbound. apply reachable_consistent in Hr.
  pose proof (lookup_lt_Some _ _ _ Hi) as Hlt.
  assert (Hk : futures s !! promise (_func t) = Some NotReady).
  { apply (c_fresh _ Hr). unfold pending, in_hand.
    apply elem_of_app. right. apply list_elem_of_bind.
    exists (AtTry t). split; [simpl; left|].
    by eapply list_elem_of_lookup_2. }
  destruct (invoke_pending s _ Hk) as (r & Hinv & Hres).
  rewrite Hbound in Hres. subst r.
  eexists. split.
  { unfold worker_step. rewrite (c_alive _ Hr), Hi, Hexp, Hinv. done. }
  assert (Hi' : <[i := AtDec t]> (threads_ (pool s)) !! i = Some (AtDec t))
    by (by apply list_lookup_insert_eq).
  split; [|split; [|split; [|split]]].
  - unfold future_get, task_id. simpl.
    rewrite list_lookup_insert_eq; [done|]. by eapply lookup_lt_Some.
  - apply (c_alive _ Hr).
  - done.
  - destruct (back_to_loop i
                (set_thread i (AtDec t)
                   (set_effects (promise (_func t) :: effects s)
                      (set_futures
                         (<[promise (_func t) := stored (Throws e)]>
                            (futures s)) s))) t)
      as (s'' & Hrun & Hw & _ & Ha''); [apply (c_alive _ Hr)|done|].
    by exists s''.
  - split_and!; try done.
    + intros j Hj. simpl. by rewrite list_lookup_insert_ne.
    + intros k Hk'. simpl. by rewrite list_lookup_insert_ne.
    + unfold getThreadNum. simpl. by rewrite length_insert.
Qed.

Lemma C9_witness :
  exists s',
    worker_step 0 (after failing_events) = Some s' /\
    future_get s' (task_id (envelope 0 (Throws "boom") (new_process at_1000ms)))
    = Some (inr "boom"%string) /\
    aborted s' = false /\
    threads_ (pool s') !! 0
    = Some (AtDec (envelope 0 (Throws "boom") (new_process at_1000ms))) /\
    (exists s'', run [Worker 0; Worker 0; Worker 0] s' = Some s'' /\
                 threads_ (pool s'') !! 0 = Some AtWhile /\
                 aborted s'' = false) /\
    tasks_ (pool s') = tasks_ (pool (after failing_events)) /\
    (forall j, j <> 0 ->
       threads_ (pool s') !! j = threads_ (pool (after failing_events)) !! j) /\
    (forall k,
       k <> task_id (envelope 0 (Throws "boom") (new_process at_1000ms)) ->
       futures s' !! k = futures (after failing_events) !! k) /\
    bTerminate_ (pool s') = bTerminate_ (pool (after failing_events)) /\
    getThreadNum (pool s') = getThreadNum (pool (after failing_events)).
Proof.
  apply (C9_task_failure_is_local 0 (after failing_events)
           (envelope 0 (Throws "boom") (new_process at_1000ms)) "boom").
  - apply after_reachable. by_evaluation.
  - by_evaluation.
  - by_evaluation.
  - by_evaluation.
Defined.

(** * C10: submission after shutdown *)

(** C10.  [exec] never refuses: in every state it appends one envelope and
    returns a future that is not ready.  While the flag is set [get]
    returns [false] to every worker.  So a task submitted to a pool whose
    flag is set stays queued whatever happens next ([start] included): its
    callable is never run and [get] on its future never returns. *)
Theorem C10_submission_after_shutdown :
  (forall timeoutMs f s,
     getJobNum (pool (snd (exec timeoutMs f s))) = S (getJobNum (pool s)) /\
     futures (snd (exec timeoutMs f s)) !! fst (exec timeoutMs f s)
     = Some NotReady) /\
  (forall p, bTerminate_ p = true -> get p = Some (None, p)) /\
  (forall timeoutMs f s evs s',
     reachable s -> bTerminate_ (pool s) = true ->
     run evs (snd (exec timeoutMs f s)) = Some s' ->
     let fut := fst (exec timeoutMs f s) in
     fut ∈ queued (pool s') /\
     (fut ∉ effects s') /\
     future_get s' fut = None /\
     bTerminate_ (pool s') = true).
Proof.
  split_and!.
  - intros timeoutMs f s. split; [|apply exec_future].
    unfold getJobNum. rewrite exec_appends, length_app. simpl. lia.
  - apply get_terminating.
  - intros timeoutMs f s evs s' Hr Hb Hrun fut.
    apply reachable_consistent in Hr.
    pose proof (exec_abandoned timeoutMs f s Hr Hb) as Hk.
    apply (abandoned_run _ _ _ _ Hk) in Hrun
      as (Hb' & Hf & He & _ & Hq).
    split_and!; try done. unfold future_get, fut. by rewrite Hf.
Qed.

Lemma C10_witness :
  get (pool (after [CallInit 1; CallStart; CallTerminate]))
  = Some (None, pool (after [CallInit 1; CallStart; CallTerminate])) /\
  (let s := after [CallInit 1; CallStart; CallTerminate] in
   let s' := after [CallInit 1; CallStart; CallTerminate;
                    CallExec 0 (Returns 7); CallStart; Worker 0] in
   let fut := fst (exec 0 (Returns 7) s) in
   fut ∈ queued (pool s') /\
   (fut ∉ effects s') /\
   future_get s' fut = None /\
   bTerminate_ (pool s') = true).
Proof.
  destruct C10_submission_after_shutdown as (_ & H2 & H3). split.
  - apply H2. by_evaluation.
  - apply (H3 0%Z (Returns 7) (after [CallInit 1; CallStart; CallTerminate])
             restart_events).
    + apply after_reachable. by_evaluation.
    + by_evaluation.
    + by_evaluation.
Defined.

(** * Further properties of the pool *)

(** X1.  No exception ever leaves [run]: in no reachable state has
    [std::terminate] been called.  Every envelope is called at most once and
    [std::packaged_task] keeps what its callable throws, so the
    catch-and-rethrow of [run] is never entered. *)
Theorem X1_run_never_aborts s : reachable s -> aborted s = false.
Proof. intros Hr. apply reachable_consistent in Hr. apply (c_alive _ Hr). Qed.

Lemma X1_witness : aborted (after (failing_events ++ [Worker 0])) = false.
Proof.
  apply (X1_run_never_aborts (after (failing_events ++ [Worker 0]))).
  apply after_reachable. by_evaluation.
Defined.

Lemma worker_step_accounted i s s' :
  accounted s -> worker_step i s = Some s' -> accounted s'.
Proof.
  intros Hacc H. unfold worker_step in H. destruct (aborted s); [done|].
  destruct (threads_ (pool s) !! i) as [t|]; [|done].
  destruct t; simplify_eq; try done.
  - destruct (get (pool s)) as [[[t|] p']|]; by simplify_eq.
  - destruct (expired (pool s) task); simplify_eq; [done|].
    unfold invoke in H.
    destruct (futures s !! promise (_func task)) as [[]|] eqn:Hk;
      simplify_eq; try done.
    intros k v. unfold future_get. simpl.
    destruct (decide (k = promise (_func task))) as [->|Hne].
    + intros _. left. left.
    + rewrite list_lookup_insert_ne by done. intros Hv.
      destruct (Hacc k v Hv); [left; by right|by right].
  - by destruct (drained (pool s)); simplify_eq.
  - intros k v. unfold future_get. simpl. rewrite abandon_effects.
    destruct (decide (k = promise (_func task))) as [->|Hne].
    + destruct (futures s !! promise (_func task)) as [[]|] eqn:Hk.
      * rewrite (abandon_broken _ _ Hk). intros; simplify_eq. by right.
      * unfold abandon. rewrite Hk. intros Hv. by apply Hacc.
      * unfold abandon. rewrite Hk. intros Hv. by apply Hacc.
      * unfold abandon. by rewrite Hk, Hk.
    + rewrite abandon_other by done. apply Hacc.
Qed.

Lemma step_accounted e s s' : accounted s -> step e s = Some s' -> accounted s'.
Proof.
  intros Hacc. unfold step. destruct (aborted s) eqn:Ha; [done|].
  destruct e; intros H; simplify_eq; try done.
  - intros k v. unfold future_get. simpl. intros Hv.
    destruct (decide (k < length (futures s))) as [Hlt|Hge].
    + rewrite lookup_app_l in Hv by done. by apply Hacc.
    + rewrite lookup_app_r in Hv by lia.
      by destruct (k - length (futures s)) as [|[|n]].
  - unfold terminate in H. rewrite Ha in H.
    destruct (join_all _ _ _) as [s2|] eqn:Hj; simpl in H; simplify_eq.
    apply (join_all_preserves accounted) in Hj;
      [done|by eauto using worker_step_accounted|done].
  - by eapply worker_step_accounted.
Qed.

Lemma reachable_accounted s : reachable s -> accounted s.
Proof.
  intros (tv & evs & Hrun).
  assert (Hinit : accounted (new_process tv)) by (intros k v; by destruct k).
  revert Hrun Hinit. generalize (new_process tv).
  induction evs as [|e evs IH]; intros s0; simpl.
  - by intros; simplify_eq.
  - destruct (step e s0) as [s1|] eqn:Hstep; simpl; [|done].
    intros Hrun Hacc. apply (IH s1 Hrun). by eapply step_accounted.
Qed.

(** X2.  In every reachable state no callable has run twice; the future of
    a callable that has run is ready; a future that is ready belongs to a
    callable that has run or reports a broken promise, its packaged task
    having been destroyed without a call; and a task that is still queued or
    in the hand of a worker that has not yet called it has not run and its
    future is not ready. *)
Theorem X2_each_task_runs_at_most_once s :
  reachable s ->
  NoDup (effects s) /\
  (forall k, k ∈ effects s -> is_Some (future_get s k)) /\
  (forall k v, future_get s k = Some v ->
     k ∈ effects s \/ v = inr broken_promise) /\
  (forall k, k ∈ pending s -> (k ∉ effects s) /\ future_get s k = None).
Proof.
  intros Hr. pose proof (reachable_accounted s Hr) as Hacc.
  apply reachable_consistent in Hr. split_and!.
  - apply (c_once _ Hr).
  - apply (c_ran _ Hr).
  - apply Hacc.
  - intros k Hk. split; [by apply pending_not_run|].
    unfold future_get. by rewrite (c_fresh _ Hr k Hk).
Qed.

Lemma X2_witness :
  let s := after (three_queued_events ++ replicate 14 (Worker 0)) in
  NoDup (effects s) /\
  (forall k, k ∈ effects s -> is_Some (future_get s k)) /\
  (forall k v, future_get s k = Some v ->
     k ∈ effects s \/ v = inr broken_promise) /\
  (forall k, k ∈ pending s -> (k ∉ effects s) /\ future_get s k = None).
Proof.
  apply (X2_each_task_runs_at_most_once
           (after (three_queued_events ++ replicate 14 (Worker 0)))).
  apply after_reachable. by_evaluation.
Defined.

(** X3.  [exec(f, args...)] is [exec(0, f, args...)], the envelope it builds
    has expiry 0, and such an envelope is never dropped by the expiry test
    of [run], whatever [TNOWMS] holds. *)
Theorem X3_no_timeout_never_expires :
  (forall f s, exec0 f s = exec 0 f s) /\
  (forall f s, _expireTime (envelope 0 f s) = 0%Z) /\
  (forall f s p, expired p (envelope 0 f s) = false).
Proof. split_and!; reflexivity. Qed.

(** * The clock reading and the stored expiry *)

Lemma wrap_signed_small bits x :
  (0 < bits)%Z -> (- 2 ^ (bits - 1) <= x < 2 ^ (bits - 1))%Z ->
  wrap_signed bits x = x.
Proof.
  intros Hb Hx. unfold wrap_signed.
  assert (Hp : (2 ^ bits = 2 * 2 ^ (bits - 1))%Z).
  { replace bits with (Z.succ (bits - 1)) at 1 by lia.
    rewrite Z.pow_succ_r by lia. done. }
  rewrite Z.mod_small by lia. lia.
Qed.

Lemma wrap_signed_range bits x :
  (0 < bits)%Z ->
  (- 2 ^ (bits - 1) <= wrap_signed bits x < 2 ^ (bits - 1))%Z.
Proof.
  intros Hb. unfold wrap_signed.
  assert (Hp : (2 ^ bits = 2 * 2 ^ (bits - 1))%Z).
  { replace bits with (Z.succ (bits - 1)) at 1 by lia.
    rewrite Z.pow_succ_r by lia. done. }
  assert (0 < 2 ^ (bits - 1))%Z by (apply Z.pow_pos_nonneg; lia).
  pose proof (Z.mod_pos_bound (x + 2 ^ (bits - 1)) (2 ^ bits)). lia.
Qed.

(** Adding to a wrapped value and wrapping again is wrapping the sum. *)
Lemma wrap_signed_add bits x y :
  (0 < bits)%Z ->
  wrap_signed bits (wrap_signed bits x + y) = wrap_signed bits (x + y).
Proof.
  intros Hb. unfold wrap_signed. f_equal.
  replace ((x + 2 ^ (bits - 1)) mod 2 ^ bits - 2 ^ (bits - 1) + y
           + 2 ^ (bits - 1))%Z
    with ((x + 2 ^ (bits - 1)) mod 2 ^ bits + y)%Z by lia.
  rewrite Zplus_mod_idemp_l. f_equal. lia.
Qed.

Lemma to_int64_in_range x : in_int64 x -> to_int64 x = x.
Proof. intros Hx. apply wrap_signed_small; [lia|]. apply Hx. Qed.

Lemma to_int64_range x : in_int64 (to_int64 x).
Proof. exact (wrap_signed_range 64 x eq_refl). Qed.

(** Passing an [int64_t] through [uint64_t] and back gives it back. *)
Lemma to_int64_to_uint64 x : to_int64 (to_uint64 x) = to_int64 x.
Proof.
  unfold to_int64, to_uint64, wrap_signed. f_equal.
  rewrite Zplus_mod_idemp_l. done.
Qed.

(** X4.  For a [timeval] as [gettimeofday] fills it in, [getNowMs] is the
    number of whole milliseconds, without wrap-around: the seconds times
    1000 plus the microseconds divided by 1000, rounded down.  It is
    monotone: a later [timeval] never gives a smaller reading, and two
    [timeval]s less than a second apart in the same second differ by less
    than 1000. *)
Theorem X4_getNowMs_milliseconds a b :
  normal_timeval a -> normal_timeval b ->
  getNowMs a = (tv_sec a * 1000 + tv_usec a / 1000)%Z /\
  in_int64 (getNowMs a) /\
  (1000 * getNowMs a <= tv_sec a * 1000000 + tv_usec a
   < 1000 * getNowMs a + 1000)%Z /\
  (timeval_le a b -> (getNowMs a <= getNowMs b)%Z).
Proof.
  assert (Hval : forall tv, normal_timeval tv ->
            getNowMs tv = (tv_sec tv * 1000 + tv_usec tv / 1000)%Z /\
            (0 <= tv_usec tv / 1000 < 1000)%Z /\
            (1000 * (tv_usec tv / 1000) <= tv_usec tv
             < 1000 * (tv_usec tv / 1000) + 1000)%Z).
  { intros tv [Hu Hs]. unfold getNowMs.
    rewrite Z.quot_div_nonneg by lia.
    assert (0 <= tv_usec tv / 1000 < 1000)%Z
      by (split; [apply Z.div_pos; lia|apply Z.div_lt_upper_bound; lia]).
    pose proof (Z.mul_div_le (tv_usec tv) 1000).
    pose proof (Z.mul_succ_div_gt (tv_usec tv) 1000).
    split; [|lia]. apply to_int64_in_range. unfold in_int64. lia. }
  intros Ha Hb.
  destruct (Hval a Ha) as (Ea & Ra & Ma), (Hval b Hb) as (Eb & Rb & Mb).
  destruct Ha as [Hua Hsa]. split_and!.
  - done.
  - rewrite Ea. unfold in_int64. lia.
  - rewrite Ea. lia.
  - rewrite Ea. lia.
  - rewrite Ea, Eb. intros [Hlt|[Heq Hle]]; [lia|].
    rewrite Heq. apply Z.add_le_mono_l, Z.div_le_mono; lia.
Qed.

Lemma X4_witness :
  getNowMs (mkTimeval 1 999999) = (1 * 1000 + 999999 / 1000)%Z /\
  in_int64 (getNowMs (mkTimeval 1 999999)) /\
  (1000 * getNowMs (mkTimeval 1 999999) <= 1 * 1000000 + 999999
   < 1000 * getNowMs (mkTimeval 1 999999) + 1000)%Z /\
  (timeval_le (mkTimeval 1 999999) (mkTimeval 2 0) ->
   (getNowMs (mkTimeval 1 999999) <= getNowMs (mkTimeval 2 0))%Z).
Proof.
  apply (X4_getNowMs_milliseconds (mkTimeval 1 999999) (mkTimeval 2 0));
    unfold normal_timeval; simpl; lia.
Defined.

(** X5.  The [uint64_t] parameter of [TaskFunc]'s constructor does not
    change the expiry that [exec] computes: the envelope stores 0 for a
    zero timeout and otherwise [TNOWMS + timeoutMs], wrapped to 64 bits by
    the addition only, so exactly [TNOWMS + timeoutMs] whenever that sum is
    an [int64_t].  [exec] queues this envelope, and the stored expiry is
    always an [int64_t]. *)
Theorem X5_stored_expiry_round_trip timeoutMs f s :
  in_int64 (TNOWMS (pool s) + timeoutMs) ->
  _expireTime (envelope timeoutMs f s)
  = (if (timeoutMs =? 0)%Z then 0 else TNOWMS (pool s) + timeoutMs)%Z /\
  last (tasks_ (pool (snd (exec timeoutMs f s))))
  = Some (envelope timeoutMs f s) /\
  (forall T, in_int64 (_expireTime (envelope T f s))) /\
  (forall T, _expireTime (envelope T f s)
             = if (T =? 0)%Z then 0%Z else to_int64 (TNOWMS (pool s) + T)).
Proof.
  intros Hr.
  assert (Hgen : forall T, _expireTime (envelope T f s)
             = if (T =? 0)%Z then 0%Z else to_int64 (TNOWMS (pool s) + T)).
  { intros T. unfold envelope. simpl. rewrite to_int64_to_uint64.
    destruct (T =? 0)%Z; [done|].
    apply to_int64_in_range, to_int64_range. }
  split_and!.
  - rewrite Hgen. destruct (timeoutMs =? 0)%Z; [done|].
    by apply to_int64_in_range.
  - rewrite exec_appends. apply last_snoc.
  - intros T. rewrite Hgen. destruct (T =? 0)%Z.
    + unfold in_int64. lia.
    + apply to_int64_range.
  - done.
Qed.

Lemma X5_witness :
  _expireTime (envelope 50 (Returns 7) late_submit)
  = (if (50 =? 0)%Z then 0 else TNOWMS (pool late_submit) + 50)%Z /\
  last (tasks_ (pool (snd (exec 50 (Returns 7) late_submit))))
  = Some (envelope 50 (Returns 7) late_submit) /\
  (forall T, in_int64 (_expireTime (envelope T (Returns 7) late_submit))) /\
  (forall T, _expireTime (envelope T (Returns 7) late_submit)
             = if (T =? 0)%Z then 0%Z
               else to_int64 (TNOWMS (pool late_submit) + T)).
Proof.
  apply (X5_stored_expiry_round_trip 50 (Returns 7) late_submit).
  unfold in_int64. vm_compute. split; [discriminate|reflexivity].
Defined.

(** * The in-flight counter *)

Lemma count_busy_app a b : count_busy (a ++ b) = (count_busy a + count_busy b)%Z.
Proof.
  induction a as [|t a IH]; simpl; [done|]. rewrite IH. destruct (busy t); lia.
Qed.

Lemma count_busy_insert ths i t t' :
  ths !! i = Some t ->
  count_busy (<[i := t']> ths)
  = (count_busy ths - (if busy t then 1 else 0) + (if busy t' then 1 else 0))%Z.
Proof.
  intros Hi.
  assert (E : count_busy ths
              = (count_busy (take i ths) + (if busy t then 1 else 0)
                 + count_busy (drop (S i) ths))%Z).
  { rewrite <- (take_drop_middle ths i t Hi) at 1.
    rewrite count_busy_app. simpl. lia. }
  rewrite insert_take_drop by (by eapply lookup_lt_Some).
  rewrite count_busy_app, E. simpl. lia.
Qed.

Lemma count_busy_replicate n : count_busy (replicate n AtWhile) = 0%Z.
Proof. induction n as [|n IH]; simpl; [done|]. by rewrite IH. Qed.

Lemma count_busy_bounds ths : (0 <= count_busy ths <= Z.of_nat (length ths))%Z.
Proof. induction ths as [|t ths IH]; simpl; [lia|]. destruct (busy t); lia. Qed.

Lemma count_busy_finished ths :
  (forall i, i < length ths -> ths !! i = Some Finished) -> count_busy ths = 0%Z.
Proof.
  induction ths as [|t ths IH]; intros H; simpl; [done|].
  assert (t = Finished) as ->.
  { specialize (H 0). simpl in H. assert (Some t = Some Finished) by (apply H; lia).
    congruence. }
  rewrite IH; [done|]. intros i Hi. apply (H (S i)). simpl. lia.
Qed.

Lemma to_int_succ x : to_int (to_int x + 1) = to_int (x + 1).
Proof. apply wrap_signed_add. lia. Qed.

Lemma to_int_pred x : to_int (to_int x - 1) = to_int (x - 1).
Proof.
  unfold to_int. rewrite <- !Z.add_opp_r. apply wrap_signed_add. lia.
Qed.

Lemma worker_step_counted i s s' :
  counted s -> worker_step i s = Some s' -> counted s'.
Proof.
  unfold counted, worker_step, invoke. intros Hc H.
  destruct (aborted s); [done|].
  destruct (threads_ (pool s) !! i) as [t|] eqn:Hi; [|done].
  destruct t; repeat case_match; simplify_eq; try invert_get; simpl;
    rewrite ?abandon_pool;
    rewrite ?(count_busy_insert _ _ _ _ Hi); simpl; rewrite ?Hc;
    rewrite ?to_int_succ, ?to_int_pred; try done; f_equal; lia.
Qed.

(** A worker that has returned stays so, whoever moves. *)
Lemma finished_stays i j s s' :
  worker_step j s = Some s' ->
  threads_ (pool s) !! i = Some Finished ->
  threads_ (pool s') !! i = Some Finished.
Proof.
  intros H Hi. destruct (decide (j = i)) as [->|Hne].
  - unfold worker_step in H. rewrite Hi in H. by destruct (aborted s).
  - destruct (worker_step_frame _ _ _ H) as (_ & _ & _ & _ & _ & _ & Hth).
    rewrite Hth by done. done.
Qed.

Lemma join_finished fuel i s s' :
  join fuel i s = Some s' -> threads_ (pool s') !! i = Some Finished.
Proof.
  revert s. induction fuel as [|fuel IH]; intros s; simpl.
  - destruct (threads_ (pool s) !! i) as [[]|] eqn:Hi; intros H; by simplify_eq.
  - destruct (threads_ (pool s) !! i) as [[]|] eqn:Hi;
      try (intros H; by simplify_eq);
      (destruct (worker_step i s) as [s1|]; simpl; [|done]); apply IH.
Qed.

Lemma join_all_finished fuel idx s s' :
  join_all fuel idx s = Some s' ->
  forall i, i ∈ idx -> threads_ (pool s') !! i = Some Finished.
Proof.
  revert s. induction idx as [|j idx IH]; intros s H i Hi; simpl in H.
  - by apply elem_of_nil in Hi.
  - destruct (join fuel j s) as [s1|] eqn:Hj; simpl in H; [|done].
    apply elem_of_cons in Hi as [->|Hi]; [|by eapply IH].
    apply join_finished in Hj.
    apply (join_all_preserves
             (fun x => threads_ (pool x) !! j = Some Finished)) in H; try done.
    intros k x x' Hx Hstep. by eapply finished_stays.
Qed.

(** When [terminate] has joined every worker, all have returned. *)
Lemma joined_all_finished s s2 :
  join_all join_fuel (seq 0 (length (threads_ (pool s)))) s = Some s2 ->
  forall i, i < length (threads_ (pool s2)) ->
            threads_ (pool s2) !! i = Some Finished.
Proof.
  intros H i Hi.
  assert (Hlen : length (threads_ (pool s2)) = length (threads_ (pool s))).
  { apply (join_all_preserves
             (fun x => length (threads_ (pool x)) = length (threads_ (pool s))))
      in H; try done.
    intros k x x' Hx Hstep.
    destruct (worker_step_frame _ _ _ Hstep) as (_ & _ & _ & _ & Hl & _).
    congruence. }
  eapply join_all_finished; [done|]. apply elem_of_seq. lia.
Qed.

Lemma terminate_counted s s' :
  counted s -> terminate s = Some s' -> counted s'.
Proof.
  intros Hc. unfold terminate. destruct (aborted s); [done|].
  destruct (join_all _ _ _) as [s2|] eqn:Hj; simpl; [|done].
  intros H. simplify_eq. unfold counted. simpl.
  pose proof (joined_all_finished _ _ Hj) as Hfin.
  apply (join_all_preserves counted) in Hj;
    [|by eauto using worker_step_counted|done].
  unfold counted in Hj. by rewrite Hj, (count_busy_finished _ Hfin).
Qed.

Lemma step_counted e s s' : counted s -> step e s = Some s' -> counted s'.
Proof.
  intros Hc. unfold step. destruct (aborted s); [done|].
  destruct e; intros H; simplify_eq.
  - unfold counted, with_pool, init in *. by destruct (is_nil _).
  - unfold counted, with_pool, start in *. simpl.
    destruct (threads_ (pool s)) as [|t ths] eqn:Hths; simpl.
    + rewrite spawn_app. simpl. by rewrite count_busy_replicate.
    + by rewrite Hths.
  - done.
  - by eapply terminate_counted.
  - by eapply worker_step_counted.
  - done.
Qed.

Lemma reachable_counted s : reachable s -> counted s.
Proof.
  intros (now & evs & Hrun).
  assert (Hgen : forall evs x x', counted x -> run evs x = Some x' -> counted x').
  { clear. intros evs. induction evs as [|e evs IH]; intros x x' Hx; simpl.
    - by intros; simplify_eq.
    - destruct (step e x) as [x1|] eqn:Hstep; simpl; [|done].
      apply IH. by eapply step_counted. }
  eapply Hgen; [|done]. reflexivity.
Qed.

(** X6.  In every reachable state [atomic_] is the number of workers that are
    between [++atomic_] and [--atomic_] (as an [int]).  With fewer than
    2^31 workers it is exactly that number, so it is never negative and
    never exceeds the number of workers; a pool without workers has it at
    0; and the condition on which a worker signals the end of the work
    holds exactly when the queue is empty and no worker is busy. *)
Theorem X6_counter_counts_busy_workers s :
  reachable s ->
  atomic_ (pool s) = to_int (count_busy (threads_ (pool s))) /\
  (threads_ (pool s) = [] -> atomic_ (pool s) = 0%Z) /\
  ((Z.of_nat (getThreadNum (pool s)) < 2 ^ 31)%Z ->
   atomic_ (pool s) = count_busy (threads_ (pool s)) /\
   (0 <= atomic_ (pool s) <= Z.of_nat (getThreadNum (pool s)))%Z /\
   (drained (pool s) = true <->
    tasks_ (pool s) = [] /\ count_busy (threads_ (pool s)) = 0%Z)).
Proof.
  intros Hr. apply reachable_counted in Hr. unfold counted in Hr.
  split; [done|]. split.
  - intros Hths. by rewrite Hr, Hths.
  - intros Hsmall. pose proof (count_busy_bounds (threads_ (pool s))) as Hb.
    unfold getThreadNum in *.
    assert (Heq : atomic_ (pool s) = count_busy (threads_ (pool s))).
    { rewrite Hr. apply wrap_signed_small; lia. }
    split; [done|]. split; [lia|].
    unfold drained. rewrite Heq. destruct (tasks_ (pool s)); simpl.
    + rewrite andb_true_r, Z.eqb_eq. split; [by intros ?|by intros [_ ?]].
    + rewrite andb_false_r. split; [done|by intros [? _]].
Qed.

Lemma X6_witness :
  atomic_ (pool (after in_flight_events))
  = to_int (count_busy (threads_ (pool (after in_flight_events)))) /\
  (threads_ (pool (after in_flight_events)) = [] ->
   atomic_ (pool (after in_flight_events)) = 0%Z) /\
  ((Z.of_nat (getThreadNum (pool (after in_flight_events))) < 2 ^ 31)%Z ->
   atomic_ (pool (after in_flight_events))
   = count_busy (threads_ (pool (after in_flight_events))) /\
   (0 <= atomic_ (pool (after in_flight_events))
    <= Z.of_nat (getThreadNum (pool (after in_flight_events))))%Z /\
   (drained (pool (after in_flight_events)) = true <->
    tasks_ (pool (after in_flight_events)) = [] /\
    count_busy (threads_ (pool (after in_flight_events))) = 0%Z)).
Proof.
  apply (X6_counter_counts_busy_workers (after in_flight_events)).
  apply after_reachable. by_evaluation.
Defined.

(** * Futures are written once *)

Lemma later_same s s' :
  futures s' = futures s -> effects s' = effects s -> later s s'.
Proof.
  intros Hf He. unfold later, future_get. rewrite Hf, He. split_and!; done.
Qed.

(** No action of a worker changes a future that is ready: the call writes
    a shared state that is not ready, and so does the destruction of the
    envelope. *)
Lemma worker_step_later i s s' : worker_step i s = Some s' -> later s s'.
Proof.
  unfold worker_step. intros H. destruct (aborted s); [done|].
  destruct (threads_ (pool s) !! i) as [t|]; [|done].
  destruct t; try (repeat case_match; simplify_eq; by apply later_same).
  - destruct (expired (pool s) task); simplify_eq; [by apply later_same|].
    unfold invoke in H.
    destruct (futures s !! promise (_func task)) as [[]|] eqn:Hk; simplify_eq;
      try by apply later_same.
    split_and!; simpl.
    + unfold future_get. simpl. intros k v Hv.
      rewrite list_lookup_insert_ne; [done|]. intros <-. by rewrite Hk in Hv.
    + apply suffix_cons_r. done.
    + by rewrite length_insert.
  - simplify_eq. split_and!; simpl.
    + intros k v Hv. by apply (abandon_ready (_func task)) in Hv.
    + by rewrite abandon_effects.
    + by rewrite abandon_length.
Qed.

(** * A future holds the result of its own callable *)

Lemma elem_of_insert_inv {A} (l : list A) i x y :
  y ∈ <[i := x]> l -> y = x \/ y ∈ l.
Proof.
  intros [j Hj]%list_elem_of_lookup.
  apply list_lookup_insert_Some in Hj as [(_ & -> & _)|(_ & Hj)]; [by left|].
  right. by eapply list_elem_of_lookup_2.
Qed.

Lemma task_of_in_grip p t w :
  w ∈ threads_ p -> task_of w = Some t -> task_id t ∈ in_grip p.
Proof.
  intros Hw Ht. unfold in_grip. apply list_elem_of_bind. exists w.
  split; [|done]. destruct w; simpl in Ht; simplify_eq; simpl; left.
Qed.

Lemma handled_task_of w t : handled w = Some t -> task_of w = Some t.
Proof. by destruct w. Qed.

Lemma stored_ready f : stored f <> NotReady.
Proof. by destruct f. Qed.

Lemma owns_worker_step t0 i s s' :
  owns t0 s -> worker_step i s = Some s' -> owns t0 s'.
Proof.
  intros (Hq & Hh & Hf) H.
  destruct (worker_step_frame _ _ _ H) as (_ & _ & HT & _).
  pose proof (expired_TNOWMS _ _ t0 HT) as Hexp.
  unfold owns. rewrite Hexp. clear Hexp HT.
  unfold worker_step in H. destruct (aborted s); [done|].
  destruct (threads_ (pool s) !! i) as [t|] eqn:Hi; [|done].
  pose proof (list_elem_of_lookup_2 _ _ _ Hi) as Hin.
  assert (Hkeep : forall t',
             (forall x, task_of t' = Some x -> task_of t = Some x) ->
             forall x w, w ∈ <[i := t']> (threads_ (pool s)) ->
                         task_of w = Some x -> task_id x = task_id t0 ->
                         x = t0).
  { intros t' Ht' x w [->|Hw]%elem_of_insert_inv Hx Hk; [|by eapply Hh].
    apply (Hh x t); auto. }
  assert (Hpast : forall t',
             (handled t' = Some t0 -> handled t = Some t0) ->
             (forall w, w ∈ threads_ (pool s) -> handled w <> Some t0) ->
             forall w, w ∈ <[i := t']> (threads_ (pool s)) ->
                       handled w <> Some t0).
  { intros t' Ht' Hno w [->|Hw]%elem_of_insert_inv; [|by apply Hno].
    intros Hp. by apply (Hno t Hin), Ht'. }
  assert (Hsame : forall t' x,
             (forall y, task_of t' = Some y -> task_of t = Some y) ->
             (handled t' = Some t0 -> handled t = Some t0) ->
             tasks_ (pool x) = tasks_ (pool s) ->
             threads_ (pool x) = <[i := t']> (threads_ (pool s)) ->
             futures x = futures s -> effects x = effects s ->
             (forall t, t ∈ tasks_ (pool x) -> task_id t = task_id t0 ->
                        t = t0) /\
             (forall t w, w ∈ threads_ (pool x) -> task_of w = Some t ->
                          task_id t = task_id t0 -> t = t0) /\
             (if expired (pool s) t0
              then (task_id t0 ∉ effects x) /\
                   (futures x !! task_id t0 = Some NotReady \/
                    futures x !! task_id t0
                    = Some (HasException broken_promise))
              else (futures x !! task_id t0 = Some NotReady /\
                    forall w, w ∈ threads_ (pool x) ->
                              handled w <> Some t0) \/
                   futures x !! task_id t0
                   = Some (stored (bound (_func t0))))).
  { intros t' x Hto Hha Hxq Hxt Hxf Hxe.
    rewrite Hxq, Hxt, Hxf, Hxe. split; [done|]. split; [by apply Hkeep|].
    destruct (expired (pool s) t0); [done|].
    destruct Hf as [[Hnr Hno]|Hst]; [left|by right].
    split; [done|]. by apply Hpast. }
  destruct t; simplify_eq.
  - destruct (isTerminate (pool s)); simplify_eq;
      [by apply (Hsame Finished)|by apply (Hsame AtGet)].
  - destruct (get (pool s)) as [[[t|] p']|] eqn:Hget; simplify_eq; invert_get.
    + match goal with Hq' : tasks_ (pool s) = _ |- _ => rename Hq' into Htask end.
      split; [|split]; simpl.
      * intros u Hu. apply Hq. rewrite Htask. by right.
      * intros u w [->|Hw]%elem_of_insert_inv Hu Hk; [|by eapply Hh].
        simpl in Hu. simplify_eq. apply Hq; [|done]. rewrite Htask. by left.
      * destruct (expired (pool s) t0); [done|].
        destruct Hf as [[Hnr Hno]|Hst]; [left|by right].
        split; [done|]. by apply Hpast.
    + by apply (Hsame AtWhile).
  - by apply (Hsame (AtTry task)).
  - assert (Hid : task_id task = task_id t0 -> task = t0)
      by (by apply (Hh task (AtTry task))).
    destruct (expired (pool s) task) eqn:Hexp; simplify_eq.
    + split; [done|]. split; [by apply Hkeep|]. simpl.
      destruct (expired (pool s) t0) eqn:Hexp0; [done|].
      destruct Hf as [[Hnr Hno]|Hst]; [left|by right].
      split; [done|]. intros w [->|Hw]%elem_of_insert_inv; [|by apply Hno].
      simpl. intros ?; simplify_eq; congruence.
    + unfold invoke in H.
      destruct (futures s !! promise (_func task)) as [[]|] eqn:Hk;
        simplify_eq; try by split_and!.
      split; [done|]. split; [by apply Hkeep|]. simpl.
      destruct (decide (task_id task = task_id t0)) as [Heq|Hne].
      * rewrite (Hid Heq) in *. rewrite ?Hexp.
        right. apply list_lookup_insert_eq. by eapply lookup_lt_Some.
      * rewrite list_lookup_insert_ne by done.
        destruct (expired (pool s) t0) eqn:Hexp0.
        -- destruct Hf as [He Hf]. split; [|done].
           apply not_elem_of_cons. split; [|done].
           intros Heq. apply Hne. symmetry. exact Heq.
        -- destruct Hf as [[Hnr Hno]|Hst]; [left|by right].
           split; [done|].
           intros w [->|Hw]%elem_of_insert_inv; [|by apply Hno].
           simpl. intros ?; by simplify_eq.
  - by apply (Hsame (AtNotify task)).
  - destruct (drained (pool s)); simplify_eq;
      by apply (Hsame (AtEnd task)).
  - assert (Hid : task_id task = task_id t0 -> task = t0)
      by (by apply (Hh task (AtEnd task))).
    split; [simpl; by rewrite abandon_pool|]. split.
    { simpl. rewrite abandon_pool. by apply Hkeep. }
    simpl. rewrite abandon_pool, abandon_effects.
    destruct (decide (task_id task = task_id t0)) as [Heq|Hne].
    + rewrite (Hid Heq) in *.
      destruct (expired (pool s) t0).
      * destruct Hf as [He [Hf|Hf]]; (split; [done|]); right.
        -- by apply abandon_broken.
        -- by apply abandon_kept.
      * destruct Hf as [[Hnr Hno]|Hst].
        -- by destruct (Hno (AtEnd t0) Hin).
        -- right. apply abandon_kept; [done|apply stored_ready].
    + rewrite abandon_other by (intros Hk; by apply Hne).
      destruct (expired (pool s) t0); [done|].
      destruct Hf as [[Hnr Hno]|Hst]; [left|by right].
      split; [done|]. by apply Hpast.
Qed.

Lemma owns_lt t0 s : owns t0 s -> task_id t0 < length (futures s).
Proof.
  intros (_ & _ & Hf). destruct (expired (pool s) t0).
  - destruct Hf as [_ [Hf|Hf]]; by eapply lookup_lt_Some.
  - destruct Hf as [[Hf _]|Hf]; by eapply lookup_lt_Some.
Qed.

Lemma owns_step t0 e s s' : owns t0 s -> step e s = Some s' -> owns t0 s'.
Proof.
  intros Ho Hstep. pose proof Ho as (Hq & Hh & Hf).
  pose proof (expired_TNOWMS _ _ t0 (step_TNOWMS _ _ _ Hstep)) as Hexp.
  pose proof (owns_lt _ _ Ho) as Hlt.
  unfold step in Hstep. destruct (aborted s) eqn:Ha; [done|].
  destruct e; simplify_eq.
  - unfold owns, with_pool, init. by destruct (is_nil (threads_ (pool s))).
  - unfold owns in *. rewrite Hexp. clear Hexp.
    unfold with_pool, start.
    destruct (threads_ (pool s)) as [|t ths] eqn:Hths; simpl;
      [|by rewrite <- Hths in *].
    split; [done|]. rewrite spawn_app. simpl. split.
    { by intros x w ->%elem_of_replicate_inv. }
    destruct (expired (pool s) t0); [done|].
    destruct Hf as [[Hnr Hno]|Hst]; [left|by right].
    split; [done|]. by intros w ->%elem_of_replicate_inv.
  - unfold owns in *. rewrite Hexp. clear Hexp. simpl.
    rewrite lookup_app_l by done. split; [|done].
    intros x [Hx|Hx]%elem_of_app; [by apply Hq|].
    apply list_elem_of_singleton in Hx as ->. unfold task_id at 1. simpl. lia.
  - unfold terminate in Hstep. rewrite Ha in Hstep.
    destruct (join_all _ _ _) as [s2|] eqn:Hj; simpl in Hstep; simplify_eq.
    apply (join_all_preserves (owns t0)) in Hj;
      [|by eauto using owns_worker_step|].
    + destruct Hj as (Hq2 & Hh2 & Hf2).
      split; [done|]. split; [intros x w Hw; by apply elem_of_nil in Hw|].
      simpl. change (expired (set_threads [] (pool s2)) t0)
        with (expired (pool s2) t0).
      destruct (expired (pool s2) t0); [done|].
      destruct Hf2 as [[Hnr Hno]|Hst]; [left|by right].
      split; [done|]. intros w Hw. by apply elem_of_nil in Hw.
    + done.
  - by eapply owns_worker_step.
  - done.
Qed.

Lemma owns_run t0 evs s s' : owns t0 s -> run evs s = Some s' -> owns t0 s'.
Proof.
  revert s. induction evs as [|e evs IH]; intros s Ho; simpl.
  - by intros; simplify_eq.
  - destruct (step e s) as [s1|] eqn:Hstep; simpl; [|done].
    apply IH. by eapply owns_step.
Qed.

Lemma exec_owns timeoutMs f s :
  consistent s ->
  owns (envelope timeoutMs f s) (snd (exec timeoutMs f s)).
Proof.
  intros Hc. pose proof (c_alloc _ Hc) as Hlt.
  assert (Hnew : forall w, w ∈ threads_ (pool s) ->
                   handled w <> Some (envelope timeoutMs f s)).
  { intros w Hw Hx%handled_task_of.
    apply (task_of_in_grip _ _ _ Hw) in Hx.
    assert (Hin : task_id (envelope timeoutMs f s) ∈ envelopes s)
      by (apply elem_of_app; by right).
    apply Hlt in Hin. unfold task_id in Hin. simpl in Hin. lia. }
  split; [|split].
  - rewrite exec_appends. intros x [Hx|Hx]%elem_of_app Hk.
    + assert (Hin : task_id x ∈ envelopes s).
      { apply elem_of_app. left. unfold queued. by apply list_elem_of_fmap_2. }
      apply Hlt in Hin. unfold task_id in Hk at 2. simpl in Hk. lia.
    + by apply list_elem_of_singleton in Hx as ->.
  - simpl. intros x w Hw Hx Hk.
    assert (Hin : task_id x ∈ envelopes s).
    { apply elem_of_app. right. by eapply task_of_in_grip. }
    apply Hlt in Hin. unfold task_id in Hk at 2. simpl in Hk. lia.
  - change (expired (pool (snd (exec timeoutMs f s))) (envelope timeoutMs f s))
      with (expired (pool s) (envelope timeoutMs f s)).
    destruct (exec_future timeoutMs f s) as [_ Hnr].
    destruct (expired (pool s) (envelope timeoutMs f s)).
    + split; [|by left]. intros Hin. apply (effects_lt _ _ Hc) in Hin.
      unfold task_id in Hin. simpl in Hin. lia.
    + left. split; [done|]. apply Hnew.
Qed.

(** X8.  The future returned by [exec(timeoutMs, f, args...)] belongs to
    that task alone, in whatever state the process is later.  If the expiry
    test of [run] lets the task through, [get] on the future gives nothing
    yet or the result of [f] itself, its value or the exception it throws.
    If the test drops the task, [f] is never called and [get] gives nothing
    yet or throws [std::future_error] for the broken promise.  In neither
    case does it give the result of another task. *)
Theorem X8_future_holds_own_result timeoutMs f s evs s' :
  reachable s ->
  run evs (snd (exec timeoutMs f s)) = Some s' ->
  if expired (pool s) (envelope timeoutMs f s)
  then (fst (exec timeoutMs f s) ∉ effects s') /\
       (future_get s' (fst (exec timeoutMs f s)) = None \/
        future_get s' (fst (exec timeoutMs f s))
        = Some (inr broken_promise))
  else future_get s' (fst (exec timeoutMs f s)) = None \/
       future_get s' (fst (exec timeoutMs f s)) = Some (result f).
Proof.
  intros Hr Hrun. apply reachable_consistent in Hr.
  pose proof (exec_owns timeoutMs f s Hr) as Ho.
  pose proof (run_TNOWMS _ _ _ Hrun) as HT.
  apply (owns_run _ _ _ _ Ho) in Hrun as (_ & _ & Hf).
  rewrite (expired_TNOWMS (pool s) (pool s')) in Hf by exact HT.
  change (task_id (envelope timeoutMs f s))
    with (fst (exec timeoutMs f s)) in Hf.
  unfold future_get.
  destruct (expired (pool s) (envelope timeoutMs f s)).
  - destruct Hf as [He [Hf|Hf]]; rewrite Hf; (split; [done|]);
      [by left|by right].
  - destruct Hf as [[Hf _]|Hf]; rewrite Hf; [by left|right].
    simpl. by destruct f.
Qed.

Lemma X8_witness :
  (future_get (after (one_done_events ++ [CallExec 0 (Throws "x")] ++ round 0))
     (fst (exec 0 (Throws "x") (after one_done_events))) = None \/
   future_get (after (one_done_events ++ [CallExec 0 (Throws "x")] ++ round 0))
     (fst (exec 0 (Throws "x") (after one_done_events)))
   = Some (result (Throws "x"))) /\
  ((fst (exec (-5) (Returns 7) (after [CallInit 1; CallStart]))
    ∉ effects (after ([CallInit 1; CallStart; CallExec (-5) (Returns 7)]
                      ++ round 0))) /\
   (future_get (after ([CallInit 1; CallStart; CallExec (-5) (Returns 7)]
                       ++ round 0))
      (fst (exec (-5) (Returns 7) (after [CallInit 1; CallStart]))) = None \/
    future_get (after ([CallInit 1; CallStart; CallExec (-5) (Returns 7)]
                       ++ round 0))
      (fst (exec (-5) (Returns 7) (after [CallInit 1; CallStart])))
    = Some (inr broken_promise))).
Proof.
  split.
  - apply (X8_future_holds_own_result 0 (Throws "x") (after one_done_events)
             (round 0)).
    + apply after_reachable. by_evaluation.
    + by_evaluation.
  - apply (X8_future_holds_own_result (-5) (Returns 7)
             (after [CallInit 1; CallStart]) (round 0)).
    + apply after_reachable. by_evaluation.
    + by_evaluation.
Defined.

(** * [terminate] lets the workers finish what they hold *)

Lemma finishing_worker_step t i s s' :
  finishing t s -> worker_step i s = Some s' -> finishing t s'.
Proof.
  intros (Hexp & Hcase) H.
  destruct (worker_step_frame _ _ _ H) as (_ & _ & HT & _ & _ & _ & Hoth).
  split; [by rewrite (expired_TNOWMS _ _ _ HT)|].
  destruct Hcase as [(w & Hw & Hh)|(He & Hf)].
  - apply list_elem_of_lookup in Hw as [j Hj].
    destruct (decide (j = i)) as [->|Hne].
    + unfold worker_step in H. destruct (aborted s); [done|].
      rewrite Hj in H.
      pose proof (lookup_lt_Some _ _ _ Hj) as Hlt.
      destruct Hh as [-> | ->]; simplify_eq.
      * left. exists (AtTry t). split; [|by right]. simpl.
        eapply list_elem_of_lookup_2. by apply list_lookup_insert_eq.
      * rewrite Hexp in H. unfold invoke in H.
        destruct (futures s !! promise (_func t)) as [[]|] eqn:Hk; simplify_eq;
          try (left; exists (AtTry t); split; [|by right]; simpl;
               by eapply list_elem_of_lookup_2).
        right. simpl. split; [left|].
        unfold task_id. rewrite list_lookup_insert_eq; [done|].
        by eapply lookup_lt_Some.
    + left. exists w. split; [|done].
      eapply list_elem_of_lookup_2. by rewrite Hoth.
  - right. destruct (worker_step_later _ _ _ H) as (Hget & Hsuf & _). split.
    + destruct Hsuf as [l ->]. apply elem_of_app. by right.
    + assert (Hg : future_get s (task_id t) = Some (result (bound (_func t)))).
      { unfold future_get. rewrite Hf. by destruct (bound (_func t)). }
      apply Hget in Hg. unfold future_get in Hg.
      destruct (futures s' !! task_id t) as [[]|], (bound (_func t));
        simpl in *; congruence.
Qed.

(** X9.  [terminate] does not cut a worker short: a task that a worker has
    dequeued and not yet called when [terminate] is called, and that the
    expiry test lets through, has been called by the time [terminate]
    returns; its future then gives the result of its callable, and the
    in-flight counter is back at 0. *)
Theorem X9_terminate_finishes_held_tasks s t w :
  reachable s ->
  w ∈ threads_ (pool s) -> holds t w ->
  expired (pool s) t = false ->
  exists s',
    terminate s = Some s' /\
    task_id t ∈ effects s' /\
    future_get s' (task_id t) = Some (result (bound (_func t))) /\
    atomic_ (pool s') = 0%Z /\
    getThreadNum (pool s') = 0.
Proof.
  intros Hr Hw Hh Hexp.
  pose proof (reachable_counted _ Hr) as Hcnt.
  apply reachable_consistent in Hr.
  destruct (terminate_returns s Hr) as (s' & Ht & _ & Hths & _).
  exists s'. split; [done|].
  pose proof (terminate_counted _ _ Hcnt Ht) as Hcnt'.
  unfold counted in Hcnt'. rewrite Hths in Hcnt'.
  unfold terminate in Ht. rewrite (c_alive _ Hr) in Ht.
  destruct (join_all _ _ _) as [s2|] eqn:Hj; simpl in Ht; simplify_eq.
  assert (Hfin : forall i, i < length (threads_ (pool s2)) ->
                           threads_ (pool s2) !! i = Some Finished)
    by (by apply (joined_all_finished _ _ Hj)).
  apply (join_all_preserves (finishing t)) in Hj;
    [|by eauto using finishing_worker_step|].
  - destruct Hj as (_ & [(w' & Hw' & Hh')|(He & Hf)]).
    + apply list_elem_of_lookup in Hw' as [j Hj'].
      rewrite (Hfin j) in Hj' by (by eapply lookup_lt_Some).
      destruct Hh' as [-> | ->]; congruence.
    + simpl. unfold future_get, getThreadNum. simpl. rewrite Hf.
      split_and!; try done. by destruct (bound (_func t)).
  - split; [done|]. left. by exists w.
Qed.

Lemma X9_witness :
  exists s',
    terminate (after in_flight_events) = Some s' /\
    task_id (envelope 0 (Returns 7) (new_process at_1000ms)) ∈ effects s' /\
    future_get s' (task_id (envelope 0 (Returns 7) (new_process at_1000ms)))
    = Some (result (bound (_func (envelope 0 (Returns 7)
                                    (new_process at_1000ms))))) /\
    atomic_ (pool s') = 0%Z /\
    getThreadNum (pool s') = 0.
Proof.
  apply (X9_terminate_finishes_held_tasks (after in_flight_events)
           (envelope 0 (Returns 7) (new_process at_1000ms))
           (AtTry (envelope 0 (Returns 7) (new_process at_1000ms)))).
  - apply after_reachable. by_evaluation.
  - vm_compute. left.
  - by right.
  - by_evaluation.
Defined.

(** * One worker empties the queue *)

Lemma run_app evs1 evs2 s :
  run (evs1 ++ evs2) s = s' ← run evs1 s; run evs2 s'.
Proof.
  revert s. induction evs1 as [|e evs1 IH]; intros s; simpl; [done|].
  destruct (step e s); simpl; auto.
Qed.

Lemma set_thread_lookup i t s :
  i < length (threads_ (pool s)) ->
  threads_ (pool (set_thread i t s)) !! i = Some t.
Proof. intros Hlt. simpl. by apply list_lookup_insert_eq. Qed.

Lemma set_thread_length i t s :
  length (threads_ (pool (set_thread i t s))) = length (threads_ (pool s)).
Proof. simpl. apply length_insert. Qed.

(** The single actions of a worker, by the point it has reached. *)
Lemma at_while i s :
  aborted s = false -> threads_ (pool s) !! i = Some AtWhile ->
  bTerminate_ (pool s) = false ->
  worker_step i s = Some (set_thread i AtGet s).
Proof.
  intros Ha Hi Hb. unfold worker_step, isTerminate. by rewrite Ha, Hi, Hb.
Qed.

Lemma at_get i s t q :
  aborted s = false -> threads_ (pool s) !! i = Some AtGet ->
  bTerminate_ (pool s) = false -> tasks_ (pool s) = t :: q ->
  worker_step i s
  = Some (set_thread i (AtInc t) (with_pool (fun _ => set_tasks q (pool s)) s)).
Proof.
  intros Ha Hi Hb Hq. unfold worker_step.
  by rewrite Ha, Hi, (get_front _ t q Hb Hq).
Qed.

Lemma at_inc i s t :
  aborted s = false -> threads_ (pool s) !! i = Some (AtInc t) ->
  worker_step i s
  = Some (set_thread i (AtTry t)
            (with_pool (fun p => set_atomic (to_int (atomic_ p + 1)) p) s)).
Proof. intros Ha Hi. unfold worker_step. by rewrite Ha, Hi. Qed.

Lemma at_try_expired i s t :
  aborted s = false -> threads_ (pool s) !! i = Some (AtTry t) ->
  expired (pool s) t = true ->
  worker_step i s = Some (set_thread i (AtDec t) s).
Proof. intros Ha Hi He. unfold worker_step. by rewrite Ha, Hi, He. Qed.

Lemma at_try_live i s t :
  aborted s = false -> threads_ (pool s) !! i = Some (AtTry t) ->
  expired (pool s) t = false ->
  futures s !! task_id t = Some NotReady ->
  worker_step i s
  = Some (set_thread i (AtDec t)
            (set_effects (task_id t :: effects s)
               (set_futures
                  (<[task_id t := stored (bound (_func t))]> (futures s)) s))).
Proof.
  intros Ha Hi He Hk. unfold worker_step, invoke.
  unfold task_id in *. rewrite Ha, Hi, He, Hk. done.
Qed.

Lemma at_dec i s t :
  aborted s = false -> threads_ (pool s) !! i = Some (AtDec t) ->
  worker_step i s
  = Some (set_thread i (AtNotify t)
            (with_pool (fun p => set_atomic (to_int (atomic_ p - 1)) p) s)).
Proof. intros Ha Hi. unfold worker_step. by rewrite Ha, Hi. Qed.

Lemma at_notify i s t :
  aborted s = false -> threads_ (pool s) !! i = Some (AtNotify t) ->
  worker_step i s
  = Some (set_thread i (AtEnd t)
            (if drained (pool s) then set_signals (S (signals s)) s else s)).
Proof. intros Ha Hi. unfold worker_step. by rewrite Ha, Hi. Qed.

Lemma at_end i s t :
  aborted s = false -> threads_ (pool s) !! i = Some (AtEnd t) ->
  worker_step i s = Some (set_thread i AtWhile (abandon (_func t) s)).
Proof. intros Ha Hi. unfold worker_step. by rewrite Ha, Hi. Qed.

(** What the destruction of a packaged task writes depends on the shared
    states alone. *)
Lemma abandon_futures task s x :
  futures x = futures s ->
  futures (abandon task x) = futures (abandon task s).
Proof.
  intros H. unfold abandon. rewrite H.
  destruct (futures s !! promise task) as [[]|]; simpl; by rewrite ?H.
Qed.

(** From [--atomic_] a worker is back at the head of its loop in three
    actions, the last of which destroys the envelope; they do not touch the
    queue. *)
Lemma round_end i s t evs :
  aborted s = false -> threads_ (pool s) !! i = Some (AtDec t) ->
  exists s1,
    run (Worker i :: Worker i :: Worker i :: evs) s = run evs s1 /\
    aborted s1 = false /\
    threads_ (pool s1) !! i = Some AtWhile /\
    bTerminate_ (pool s1) = bTerminate_ (pool s) /\
    tasks_ (pool s1) = tasks_ (pool s) /\
    TNOWMS (pool s1) = TNOWMS (pool s) /\
    futures s1 = futures (abandon (_func t) s) /\ effects s1 = effects s.
Proof.
  intros Ha Hi. pose proof (lookup_lt_Some _ _ _ Hi) as Hlt.
  rewrite (run_worker i _ s _ Ha (at_dec i s t Ha Hi)).
  set (s5 := set_thread i (AtNotify t) _).
  assert (Ha5 : aborted s5 = false) by done.
  assert (Hi5 : threads_ (pool s5) !! i = Some (AtNotify t))
    by (by apply set_thread_lookup).
  rewrite (run_worker i _ s5 _ Ha5 (at_notify i s5 t Ha5 Hi5)).
  set (s6 := set_thread i (AtEnd t) _).
  assert (F6 : aborted s6 = false /\
               length (threads_ (pool s6)) = length (threads_ (pool s)) /\
               bTerminate_ (pool s6) = bTerminate_ (pool s) /\
               tasks_ (pool s6) = tasks_ (pool s) /\
               TNOWMS (pool s6) = TNOWMS (pool s) /\
               futures s6 = futures s /\ effects s6 = effects s).
  { subst s6. destruct (drained (pool s5)); simpl;
      rewrite !length_insert; done. }
  destruct F6 as (Ha6 & Hl6 & Hb6 & Hq6 & HT6 & Hf6 & He6).
  assert (Hi6 : threads_ (pool s6) !! i = Some (AtEnd t)).
  { subst s6. apply set_thread_lookup.
    destruct (drained (pool s5)); simpl; by rewrite length_insert. }
  rewrite (run_worker i _ s6 _ Ha6 (at_end i s6 t Ha6 Hi6)).
  eexists. split; [done|]. simpl.
  rewrite abandon_aborted, abandon_pool, abandon_effects.
  split; [done|]. split; [apply list_lookup_insert_eq; lia|].
  split; [done|]. split; [done|]. split; [done|].
  split; [by apply abandon_futures|done].
Qed.

(** A worker at the head of its loop, the flag clear, handles the front
    task, destroys its envelope and is back at the head of its loop.  The
    future of a task that the expiry test drops then reports a broken
    promise. *)
Lemma round_front i s t q :
  consistent s ->
  bTerminate_ (pool s) = false ->
  threads_ (pool s) !! i = Some AtWhile ->
  tasks_ (pool s) = t :: q ->
  exists s1,
    run (round i) s = Some s1 /\
    bTerminate_ (pool s1) = false /\
    threads_ (pool s1) !! i = Some AtWhile /\
    tasks_ (pool s1) = q /\
    TNOWMS (pool s1) = TNOWMS (pool s) /\
    (if expired (pool s) t
     then futures s1
          = <[task_id t := HasException broken_promise]> (futures s) /\
          effects s1 = effects s
     else futures s1
          = <[task_id t := stored (bound (_func t))]> (futures s) /\
          effects s1 = task_id t :: effects s).
Proof.
  intros Hc Hb Hi Hq. pose proof (c_alive _ Hc) as Ha.
  pose proof (lookup_lt_Some _ _ _ Hi) as Hlt.
  assert (Hk : futures s !! task_id t = Some NotReady).
  { apply (c_fresh _ Hc). apply elem_of_app. left. unfold queued.
    rewrite Hq. simpl. left. }
  unfold round. cbn [replicate].
  rewrite (run_worker i _ s _ Ha (at_while i s Ha Hi Hb)).
  set (s1 := set_thread i AtGet s).
  assert (Hi1 : threads_ (pool s1) !! i = Some AtGet)
    by (by apply set_thread_lookup).
  rewrite (run_worker i _ s1 _ Ha (at_get i s1 t q Ha Hi1 Hb Hq)).
  set (s2 := set_thread i (AtInc t) _).
  assert (Hi2 : threads_ (pool s2) !! i = Some (AtInc t)).
  { apply set_thread_lookup. simpl. by rewrite length_insert. }
  rewrite (run_worker i _ s2 _ Ha (at_inc i s2 t Ha Hi2)).
  set (s3 := set_thread i (AtTry t) _).
  assert (Hi3 : threads_ (pool s3) !! i = Some (AtTry t)).
  { apply set_thread_lookup. simpl. by rewrite !length_insert. }
  assert (He3 : expired (pool s3) t = expired (pool s) t) by done.
  destruct (expired (pool s) t) eqn:Hexp.
  - rewrite (run_worker i _ s3 _ Ha (at_try_expired i s3 t Ha Hi3 He3)).
    set (s4 := set_thread i (AtDec t) s3).
    assert (Hi4 : threads_ (pool s4) !! i = Some (AtDec t)).
    { apply set_thread_lookup. simpl. by rewrite !length_insert. }
    assert (F4 : bTerminate_ (pool s4) = false /\ tasks_ (pool s4) = q /\
                 TNOWMS (pool s4) = TNOWMS (pool s) /\
                 futures s4 = futures s /\ effects s4 = effects s)
      by (split_and!; simpl; done).
    destruct F4 as (Fb & Fq & FT & Ff & Fe).
    destruct (round_end i s4 t [] Ha Hi4)
      as (s6 & -> & _ & Hi6 & Hb6 & Hq6 & HT6 & Hf6 & He6).
    exists s6. split_and!; try done; try congruence.
    rewrite Hf6, (abandon_futures _ s s4 Ff).
    unfold abandon, task_id in *. by rewrite Hk.
  - rewrite (run_worker i _ s3 _ Ha (at_try_live i s3 t Ha Hi3 He3 Hk)).
    set (s4 := set_thread i (AtDec t) _).
    assert (Hi4 : threads_ (pool s4) !! i = Some (AtDec t)).
    { apply set_thread_lookup. simpl. by rewrite !length_insert. }
    assert (F4 : bTerminate_ (pool s4) = false /\ tasks_ (pool s4) = q /\
                 TNOWMS (pool s4) = TNOWMS (pool s) /\
                 futures s4
                 = <[task_id t := stored (bound (_func t))]> (futures s) /\
                 effects s4 = task_id t :: effects s)
      by (split_and!; simpl; done).
    destruct F4 as (Fb & Fq & FT & Ff & Fe).
    destruct (round_end i s4 t [] Ha Hi4)
      as (s6 & -> & _ & Hi6 & Hb6 & Hq6 & HT6 & Hf6 & He6).
    exists s6. split_and!; try done; try congruence.
    rewrite Hf6. unfold abandon. fold (task_id t). rewrite Ff.
    rewrite list_lookup_insert_eq by (by eapply lookup_lt_Some).
    by destruct (bound (_func t)).
Qed.

Lemma live_cons p t q :
  live p (t :: q) = if expired p t then live p q else t :: live p q.
Proof.
  unfold live. rewrite filter_cons.
  destruct (expired p t); by case_decide.
Qed.

Lemma live_TNOWMS p p' q : TNOWMS p' = TNOWMS p -> live p' q = live p q.
Proof.
  intros H. induction q as [|t q IH]; [done|].
  by rewrite !live_cons, IH, (expired_TNOWMS _ _ _ H).
Qed.

Lemma live_elem p q t : t ∈ live p q <-> expired p t = false /\ t ∈ q.
Proof. unfold live. by rewrite list_elem_of_filter. Qed.

Lemma NoDup_fmap_inj {A B} (f : A -> B) (l : list A) x y :
  NoDup (f <$> l) -> x ∈ l -> y ∈ l -> f x = f y -> x = y.
Proof.
  induction l as [|a l IH]; intros Hnd Hx Hy Hf.
  - by apply elem_of_nil in Hx.
  - rewrite fmap_cons in Hnd. apply NoDup_cons in Hnd as [Hnot Hnd].
    apply elem_of_cons in Hx as [->|Hx], Hy as [->|Hy]; auto.
    + exfalso. apply Hnot. rewrite Hf. by apply list_elem_of_fmap_2.
    + exfalso. apply Hnot. rewrite <- Hf. by apply list_elem_of_fmap_2.
Qed.

Lemma queued_nodup s : consistent s -> NoDup (task_id <$> tasks_ (pool s)).
Proof.
  intros Hc. pose proof (c_nodup _ Hc) as Hnd. unfold pending, queued in Hnd.
  by apply NoDup_app in Hnd as (? & _ & _).
Qed.

(** What the future of a task holds when a worker has handled it. *)
Lemma drain i q :
  forall s,
    consistent s ->
    bTerminate_ (pool s) = false ->
    threads_ (pool s) !! i = Some AtWhile ->
    tasks_ (pool s) = q ->
    exists s',
      run (rounds i (length q)) s = Some s' /\
      threads_ (pool s') !! i = Some AtWhile /\
      tasks_ (pool s') = [] /\
      effects s' = reverse (task_id <$> live (pool s) q) ++ effects s /\
      (forall k, k ∉ task_id <$> q -> futures s' !! k = futures s !! k) /\
      (forall t, t ∈ q ->
         futures s' !! task_id t
         = Some (if expired (pool s) t then HasException broken_promise
                 else stored (bound (_func t)))).
Proof.
  induction q as [|t q IH]; intros s Hc Hb Hi Hq.
  - exists s. simpl. split_and!; try done.
    intros t Ht. by apply elem_of_nil in Ht.
  - destruct (round_front i s t q Hc Hb Hi Hq)
      as (s1 & Hrun & Hb1 & Hi1 & Hq1 & HT1 & Hres).
    pose proof (run_consistent _ _ _ Hc Hrun) as Hc1.
    destruct (IH s1 Hc1 Hb1 Hi1 Hq1)
      as (s' & Hrun' & Hi' & Hq' & He' & Hoth & Hdone).
    rewrite (live_TNOWMS _ _ _ HT1) in He'.
    exists s'. cbn [length rounds]. rewrite run_app, Hrun. simpl.
    split; [done|]. split; [done|]. split; [done|].
    pose proof (queued_nodup _ Hc) as Hnd. rewrite Hq, fmap_cons in Hnd.
    apply NoDup_cons in Hnd as [Hfresh _].
    assert (Hk : task_id t < length (futures s)).
    { apply (pending_lt _ _ Hc). apply elem_of_app. left. unfold queued.
      rewrite Hq. simpl. left. }
    split; [|split].
    + rewrite live_cons. destruct (expired (pool s) t);
        destruct Hres as [Hf1 He1]; rewrite He', He1; [done|].
      by rewrite fmap_cons, reverse_cons, <- app_assoc.
    + intros k [Hne Hk']%not_elem_of_cons. rewrite Hoth by done.
      destruct (expired (pool s) t); destruct Hres as [-> _];
        by apply list_lookup_insert_ne.
    + intros u [->|Hu]%elem_of_cons.
      * rewrite Hoth by done.
        destruct (expired (pool s) t); destruct Hres as [-> _];
          by apply list_lookup_insert_eq.
      * rewrite (Hdone u Hu). by rewrite (expired_TNOWMS _ _ _ HT1).
Qed.

(** X10.  A pool that is not shutting down and has a worker at the head of
    its loop gets through its whole queue: in seven actions per queued task
    that worker empties the queue and is back at the head of its loop.
    The tasks that the expiry test lets through are called in the order of
    the queue (the one called last is first in [effects]) and the future of
    each then gives the result of its callable; a task the test drops is not
    called, and when its envelope is destroyed at the end of the loop body
    its future becomes ready with [std::future_error] for the broken
    promise; no other future changes; and [waitForAllDone] then returns
    [true] at once. *)
Theorem X10_one_worker_empties_the_queue i s :
  reachable s ->
  bTerminate_ (pool s) = false ->
  threads_ (pool s) !! i = Some AtWhile ->
  exists s',
    run (rounds i (getJobNum (pool s))) s = Some s' /\
    tasks_ (pool s') = [] /\
    threads_ (pool s') !! i = Some AtWhile /\
    effects s'
    = reverse (task_id <$> live (pool s) (tasks_ (pool s))) ++ effects s /\
    (forall t, t ∈ tasks_ (pool s) ->
       if expired (pool s) t
       then future_get s' (task_id t) = Some (inr broken_promise) /\
            (task_id t ∉ effects s')
       else future_get s' (task_id t) = Some (result (bound (_func t)))) /\
    (forall k, k ∉ queued (pool s) -> futures s' !! k = futures s !! k) /\
    (forall ms, waitForAllDone ms Called (pool s') = Some true).
Proof.
  intros Hr Hb Hi. apply reachable_consistent in Hr.
  destruct (drain i (tasks_ (pool s)) s Hr Hb Hi eq_refl)
    as (s' & Hrun & Hi' & Hq' & He' & Hoth & Hdone).
  exists s'. split; [done|]. split; [done|]. split; [done|]. split; [done|].
  split; [|split].
  - intros t Ht. pose proof (Hdone t Ht) as Hfut.
    destruct (expired (pool s) t) eqn:Hexp.
    + assert (Hnl : task_id t ∉ task_id <$> live (pool s) (tasks_ (pool s))).
      { intros (u & Hu & [Hlive Hin]%live_elem)%list_elem_of_fmap.
        assert (t = u) as ->; [|congruence].
        by apply (NoDup_fmap_inj task_id (tasks_ (pool s)));
          [apply queued_nodup|..]. }
      assert (Hp : task_id t ∈ pending s).
      { apply elem_of_app. left. by apply list_elem_of_fmap_2. }
      split.
      * unfold future_get. by rewrite Hfut.
      * rewrite He'. intros [Hin|Hin]%elem_of_app.
        -- apply Hnl. by apply elem_of_reverse.
        -- by apply (pending_not_run _ _ Hr Hp).
    + unfold future_get. rewrite Hfut. by destruct (bound (_func t)).
  - apply Hoth.
  - intros ms. simpl. by rewrite Hq'.
Qed.

Lemma X10_witness :
  exists s',
    run (rounds 0 (getJobNum (pool (after three_queued_events))))
      (after three_queued_events) = Some s' /\
    tasks_ (pool s') = [] /\
    threads_ (pool s') !! 0 = Some AtWhile /\
    effects s'
    = reverse (task_id <$> live (pool (after three_queued_events))
                              (tasks_ (pool (after three_queued_events))))
      ++ effects (after three_queued_events) /\
    (forall t, t ∈ tasks_ (pool (after three_queued_events)) ->
       if expired (pool (after three_queued_events)) t
       then future_get s' (task_id t) = Some (inr broken_promise) /\
            (task_id t ∉ effects s')
       else future_get s' (task_id t) = Some (result (bound (_func t)))) /\
    (forall k, k ∉ queued (pool (after three_queued_events)) ->
       futures s' !! k = futures (after three_queued_events) !! k) /\
    (forall ms, waitForAllDone ms Called (pool s') = Some true).
Proof.
  apply (X10_one_worker_empties_the_queue 0 (after three_queued_events)).
  - apply after_reachable. by_evaluation.
  - by_evaluation.
  - by_evaluation.
Defined.

(** * After shutdown nothing is started *)

Lemma frozen_worker_step s0 i s s' :
  frozen s0 s -> worker_step i s = Some s' -> frozen s0 s'.
Proof.
  intros (Hb & Hq & Hh & He) H.
  pose proof (worker_step_keeps_queue _ _ _ Hb H) as Hq'.
  destruct (worker_step_frame _ _ _ H) as (Hb' & _).
  split; [congruence|]. split; [by rewrite Hq'|].
  unfold worker_step in H. destruct (aborted s); [done|].
  destruct (threads_ (pool s) !! i) as [t|] eqn:Hi; [|done].
  destruct (in_hand_split _ _ _ Hi) as (rest & Hp & Hp').
  assert (Hheld : forall k, k ∈ held t -> k ∈ in_hand (pool s0)).
  { intros k Hk. apply Hh. unfold in_hand. rewrite Hp.
    apply elem_of_app. by left. }
  assert (Hkeep : forall t' x,
             threads_ (pool x) = <[i := t']> (threads_ (pool s)) ->
             held t' ⊆ held t ->
             forall k, k ∈ in_hand (pool x) -> k ∈ in_hand (pool s0)).
  { intros t' x Hx Hsub k Hin. apply Hh. unfold in_hand in *.
    rewrite Hx, Hp' in Hin. rewrite Hp.
    apply elem_of_app in Hin as [Hin|Hin]; apply elem_of_app; auto. }
  destruct t; simplify_eq.
  - split; [|done]. eapply Hkeep; [done|]. by destruct (isTerminate _).
  - rewrite (get_terminating _ Hb) in H. simplify_eq.
    split; [|done]. eapply Hkeep; [by destruct s as [[] ?]|done].
  - split; [|done]. by eapply Hkeep.
  - destruct (expired (pool s) task); simplify_eq.
    + split; [|done]. eapply Hkeep; [done|]. apply list_subseteq_nil.
    + unfold invoke in H.
      destruct (futures s !! promise (_func task)) as [[]|]; simplify_eq;
        try by split.
      split.
      * eapply Hkeep; [done|]. apply list_subseteq_nil.
      * simpl. intros k [->|Hin]%elem_of_cons; [|by apply He].
        right. apply Hheld. simpl. left.
  - split; [|done]. by eapply Hkeep.
  - destruct (drained (pool s)); simplify_eq;
      (split; [|done]; by eapply Hkeep).
  - split; [|simpl; by rewrite abandon_effects].
    eapply Hkeep; [simpl; by rewrite abandon_pool|done].
Qed.

Lemma frozen_step s0 e s s' : frozen s0 s -> step e s = Some s' -> frozen s0 s'.
Proof.
  intros Hfr. pose proof Hfr as (Hb & Hq & Hh & He).
  unfold step. destruct (aborted s) eqn:Ha; [done|].
  destruct e; intros H; simplify_eq.
  - unfold frozen, with_pool, init, in_hand in *.
    by destruct (is_nil (threads_ (pool s))).
  - unfold frozen, with_pool, start, in_hand in *.
    destruct (threads_ (pool s)) as [|t ths] eqn:Hths; simpl;
      [|by rewrite Hths].
    split_and!; try done. rewrite spawn_app. simpl. rewrite held_replicate.
    intros k Hin. by apply elem_of_nil in Hin.
  - split_and!; try done. simpl. etrans; [done|]. by apply prefix_app_r.
  - unfold terminate in H. rewrite Ha in H.
    destruct (join_all _ _ _) as [s2|] eqn:Hj; simpl in H; simplify_eq.
    apply (join_all_preserves (frozen s0)) in Hj;
      [|by eauto using frozen_worker_step|done].
    destruct Hj as (Hb2 & Hq2 & Hh2 & He2). split_and!; try done.
    unfold in_hand. simpl. intros k Hin. by apply elem_of_nil in Hin.
  - by eapply frozen_worker_step.
  - done.
Qed.

Lemma frozen_run s0 evs s s' : frozen s0 s -> run evs s = Some s' -> frozen s0 s'.
Proof.
  revert s. induction evs as [|e evs IH]; intros s Hfr; simpl.
  - by intros; simplify_eq.
  - destruct (step e s) as [s1|] eqn:Hstep; simpl; [|done].
    apply IH. by eapply frozen_step.
Qed.

(** X11.  Shutdown cannot be undone.  Once the flag is set it stays set
    whatever is called afterwards, [start] included; the tasks queued at
    that moment stay at the front of the queue, in order; no worker takes a
    task any more; and the only callables that run afterwards are those a
    worker had already dequeued.  In a reachable state, none of the queued
    tasks is ever called and their futures never become ready. *)
Theorem X11_nothing_starts_after_shutdown evs s s' :
  bTerminate_ (pool s) = true ->
  run evs s = Some s' ->
  bTerminate_ (pool s') = true /\
  tasks_ (pool s) `prefix_of` tasks_ (pool s') /\
  (forall k, k ∈ in_hand (pool s') -> k ∈ in_hand (pool s)) /\
  (forall k, k ∈ effects s' -> k ∈ effects s \/ k ∈ in_hand (pool s)) /\
  (reachable s ->
   forall k, k ∈ queued (pool s) ->
             (k ∉ effects s') /\ future_get s' k = None).
Proof.
  intros Hb Hrun.
  assert (Hfr : frozen s s) by (split_and!; auto).
  destruct (frozen_run _ _ _ _ Hfr Hrun) as (Hb' & Hq' & Hh' & He').
  split_and!; try done.
  intros Hr k Hk. apply reachable_consistent in Hr.
  assert (Hab : abandoned k s).
  { assert (Hp : k ∈ pending s) by (apply elem_of_app; by left).
    split_and!; try done.
    - by apply (c_fresh _ Hr).
    - by apply pending_not_run.
    - intros Hin. pose proof (c_nodup _ Hr) as Hnd. unfold envelopes in Hnd.
      apply NoDup_app in Hnd as (_ & Hdis & _). by apply (Hdis k). }
  destruct (abandoned_run _ _ _ _ Hab Hrun) as (_ & Hf & He & _).
  split; [done|]. unfold future_get. by rewrite Hf.
Qed.

Lemma X11_witness :
  bTerminate_ (pool (after (one_done_events
                              ++ [CallTerminate; CallStart; Worker 0]))) = true /\
  tasks_ (pool (after (one_done_events ++ [CallTerminate])))
    `prefix_of` tasks_ (pool (after (one_done_events
                                       ++ [CallTerminate; CallStart; Worker 0]))) /\
  (forall k,
     k ∈ in_hand (pool (after (one_done_events
                                 ++ [CallTerminate; CallStart; Worker 0]))) ->
     k ∈ in_hand (pool (after (one_done_events ++ [CallTerminate])))) /\
  (forall k,
     k ∈ effects (after (one_done_events
                           ++ [CallTerminate; CallStart; Worker 0])) ->
     k ∈ effects (after (one_done_events ++ [CallTerminate])) \/
     k ∈ in_hand (pool (after (one_done_events ++ [CallTerminate])))) /\
  (reachable (after (one_done_events ++ [CallTerminate])) ->
   forall k,
     k ∈ queued (pool (after (one_done_events ++ [CallTerminate]))) ->
     (k ∉ effects (after (one_done_events
                            ++ [CallTerminate; CallStart; Worker 0]))) /\
     future_get (after (one_done_events
                          ++ [CallTerminate; CallStart; Worker 0])) k = None).
Proof.
  apply (X11_nothing_starts_after_shutdown [CallStart; Worker 0]
           (after (one_done_events ++ [CallTerminate]))); by_evaluation.
Defined.

(** * The destructor *)

Lemma abandon_not_ready task s :
  futures (abandon task s) !! promise task <> Some NotReady.
Proof.
  unfold abandon.
  destruct (futures s !! promise task) as [[]|] eqn:Hk; simpl;
    rewrite ?Hk; try done.
  rewrite list_lookup_insert_eq by (by eapply lookup_lt_Some). done.
Qed.

Lemma finished_in_grip ths :
  (forall i, i < length ths -> ths !! i = Some Finished) -> ths ≫= owned = [].
Proof.
  induction ths as [|t ths IH]; intros H; [done|].
  assert (t = Finished) as ->.
  { specialize (H 0). simpl in H.
    assert (Some t = Some Finished) by (apply H; lia). congruence. }
  rewrite bind_cons, IH; [done|]. intros i Hi. apply (H (S i)). simpl. lia.
Qed.

Lemma worker_step_promised i s s' :
  promised s -> worker_step i s = Some s' -> promised s'.
Proof.
  intros Hp H. unfold worker_step in H. destruct (aborted s); [done|].
  destruct (threads_ (pool s) !! i) as [t|] eqn:Hi; [|done].
  destruct (in_grip_split _ _ _ Hi) as (rest & Hg & Hg').
  assert (Hsame : forall t' x,
             tasks_ (pool x) = tasks_ (pool s) ->
             threads_ (pool x) = threads_ (pool s) ->
             (forall k, futures x !! k = Some NotReady ->
                        futures s !! k = Some NotReady) ->
             owned t ⊆ owned t' ->
             promised (set_thread i t' x)).
  { intros t' x Hq Hths Hf Hsub k Hk. simpl in Hk. apply Hf, Hp in Hk.
    unfold envelopes, queued, in_grip in *. simpl. rewrite Hq, Hths, Hg'.
    rewrite Hg in Hk.
    apply elem_of_app in Hk as [Hk|Hk]; apply elem_of_app; [by left|right].
    apply elem_of_app in Hk as [Hk|Hk]; apply elem_of_app;
      [left; by apply Hsub|by right]. }
  destruct t; simplify_eq.
  - destruct (isTerminate (pool s)); simplify_eq;
      apply Hsame; try done; apply list_subseteq_nil.
  - destruct (get (pool s)) as [[[t|] p']|] eqn:Hget; simplify_eq; invert_get.
    + match goal with Hq' : tasks_ (pool s) = _ |- _ => rename Hq' into Htask end.
      intros k Hk. simpl in Hk. apply Hp in Hk.
      unfold envelopes, queued, in_grip in *. simpl. rewrite Hg'.
      rewrite Htask, Hg in Hk. simpl in Hk.
      apply elem_of_cons in Hk as [->|Hk].
      * apply elem_of_app. right. left.
      * apply elem_of_app in Hk as [Hk|Hk]; apply elem_of_app;
          [by left|right]. by right.
    + apply Hsame; try done.
  - apply Hsame; try done.
  - destruct (expired (pool s) task); simplify_eq; [by apply Hsame|].
    unfold invoke in H.
    destruct (futures s !! promise (_func task)) as [[]|] eqn:Hk;
      simplify_eq; try exact Hp.
    apply Hsame; try done. simpl. intros k Hk'.
    apply list_lookup_insert_Some in Hk' as [(_ & Hr & _)|(_ & Hk')];
      [|done].
    by destruct (bound (_func task)).
  - by apply Hsame.
  - destruct (drained (pool s)); simplify_eq; by apply Hsame.
  - intros k Hk. simpl in Hk.
    assert (Hne : k <> promise (_func task)).
    { intros ->. by apply (abandon_not_ready (_func task) s). }
    rewrite abandon_other in Hk by done. apply Hp in Hk.
    unfold envelopes, queued, in_grip in *. simpl.
    rewrite abandon_pool, Hg'. rewrite Hg in Hk.
    apply elem_of_app in Hk as [Hk|Hk]; apply elem_of_app; [by left|right].
    simpl in Hk. apply elem_of_cons in Hk as [Hk|Hk]; [|done].
    by destruct Hne.
Qed.

Lemma terminate_promised s s' :
  promised s -> terminate s = Some s' -> promised s'.
Proof.
  intros Hp. unfold terminate. destruct (aborted s); [done|].
  destruct (join_all _ _ _) as [s2|] eqn:Hj; simpl; [|done].
  intros H. simplify_eq.
  pose proof (joined_all_finished _ _ Hj) as Hfin.
  apply (join_all_preserves promised) in Hj;
    [|by eauto using worker_step_promised|exact Hp].
  intros k Hk. simpl in Hk. apply Hj in Hk.
  unfold envelopes, in_grip in *. simpl.
  by rewrite (finished_in_grip _ Hfin) in Hk.
Qed.

Lemma step_promised e s s' : promised s -> step e s = Some s' -> promised s'.
Proof.
  intros Hp. unfold step. destruct (aborted s) eqn:Ha; [done|].
  destruct e; intros H; simplify_eq.
  - unfold promised, envelopes, with_pool, init in *.
    by destruct (is_nil (threads_ (pool s))).
  - unfold promised, envelopes, queued, in_grip, with_pool, start in *.
    destruct (threads_ (pool s)) as [|t ths] eqn:Hths; simpl;
      [|by rewrite Hths].
    rewrite spawn_app. simpl. by rewrite owned_replicate.
  - intros k Hk. simpl in Hk. unfold envelopes, queued. simpl.
    rewrite fmap_app. simpl.
    destruct (decide (k < length (futures s))) as [Hlt|Hge].
    + rewrite lookup_app_l in Hk by done. apply Hp in Hk.
      apply elem_of_app in Hk as [Hk|Hk]; apply elem_of_app; [left|by right].
      apply elem_of_app. by left.
    + assert (k = length (futures s)) as ->.
      { apply lookup_lt_Some in Hk. rewrite length_app in Hk. simpl in Hk.
        lia. }
      apply elem_of_app. left. apply elem_of_app. right. left.
  - by eapply terminate_promised.
  - by eapply worker_step_promised.
  - done.
Qed.

Lemma reachable_promised s : reachable s -> promised s.
Proof.
  intros (tv & evs & Hrun).
  assert (Hinit : promised (new_process tv)) by (intros k; by destruct k).
  revert Hrun Hinit. generalize (new_process tv).
  induction evs as [|e evs IH]; intros s0; simpl.
  - by intros; simplify_eq.
  - destruct (step e s0) as [s1|] eqn:Hstep; simpl; [|done].
    intros Hrun Hp. apply (IH s1 Hrun). by eapply step_promised.
Qed.

Lemma abandon_all_frame q s :
  pool (abandon_all q s) = pool s /\
  effects (abandon_all q s) = effects s /\
  length (futures (abandon_all q s)) = length (futures s).
Proof.
  revert s. induction q as [|t q IH]; intros s; simpl; [done|].
  destruct (IH (abandon (_func t) s)) as (-> & -> & ->).
  by rewrite abandon_pool, abandon_effects, abandon_length.
Qed.

(** A shared state that is ready is left alone by the destruction of the
    queue. *)
Lemma abandon_all_kept q s k st :
  futures s !! k = Some st -> st <> NotReady ->
  futures (abandon_all q s) !! k = Some st.
Proof.
  revert s. induction q as [|t q IH]; intros s Hk Hst; simpl; [done|].
  apply IH; [|done]. by apply abandon_kept.
Qed.

(** The destruction of the queue breaks the promise of every queued task
    that has not been called. *)
Lemma abandon_all_broken q s k :
  k ∈ task_id <$> q -> futures s !! k = Some NotReady ->
  futures (abandon_all q s) !! k = Some (HasException broken_promise).
Proof.
  revert s. induction q as [|t q IH]; intros s Hin Hk; simpl.
  - by apply elem_of_nil in Hin.
  - destruct (decide (k = task_id t)) as [->|Hne].
    + apply abandon_all_kept; [|done]. by apply abandon_broken.
    + rewrite fmap_cons in Hin. apply elem_of_cons in Hin as [Hin|Hin]; [done|].
      apply IH; [done|]. by rewrite abandon_other.
Qed.

(** X12.  The destructor of a pool in a reachable state returns; it leaves
    no worker and no queued task, and no future that is not ready.  The
    callables that have run are those that had run when its call of
    [terminate] returned, and what their futures give is unchanged; the
    tasks that were queued when the destructor was called are never called,
    and [get] on the future of each then throws [std::future_error] for the
    broken promise. *)
Theorem X12_destructor_breaks_queued_promises s :
  reachable s ->
  exists s1 s',
    terminate s = Some s1 /\
    ThreadPool_delete s = Some s' /\
    tasks_ (pool s') = [] /\
    getThreadNum (pool s') = 0 /\
    effects s' = effects s1 /\
    (forall k v, future_get s1 k = Some v -> future_get s' k = Some v) /\
    (forall t, t ∈ tasks_ (pool s) ->
       future_get s' (task_id t) = Some (inr broken_promise) /\
       (task_id t ∉ effects s')) /\
    (forall k, k < length (futures s') -> is_Some (future_get s' k)).
Proof.
  intros Hr. pose proof (reachable_promised s Hr) as Hp.
  apply reachable_consistent in Hr.
  destruct (terminate_returns s Hr) as (s1 & Ht & Hc1 & Hths & Hb & Hq).
  pose proof (terminate_promised _ _ Hp Ht) as Hp1.
  destruct (abandon_all_frame (tasks_ (pool s1)) s1) as (Hpool & Heff & Hlen).
  assert (Hqueued : forall k, k ∈ queued (pool s1) ->
                      futures s1 !! k = Some NotReady ->
                      future_get (destroy_members s1) k
                      = Some (inr broken_promise)).
  { intros k Hk Hnr. unfold future_get, destroy_members. simpl.
    by rewrite (abandon_all_broken _ _ _ Hk Hnr). }
  exists s1, (destroy_members s1). unfold ThreadPool_delete. rewrite Ht.
  split; [done|]. split; [done|]. split; [done|].
  split; [unfold getThreadNum, destroy_members; simpl; by rewrite Hpool, Hths|].
  split; [done|]. split; [|split].
  - intros k v. unfold future_get, destroy_members. simpl. intros Hv.
    destruct (futures s1 !! k) as [st|] eqn:Hk; [|done].
    rewrite (abandon_all_kept _ _ _ st Hk); [done|]. by intros ->.
  - intros t Hin. rewrite <- Hq in Hin.
    assert (Hpend : task_id t ∈ pending s1).
    { apply elem_of_app. left. by apply list_elem_of_fmap_2. }
    split.
    + apply Hqueued; [by apply list_elem_of_fmap_2|by apply (c_fresh _ Hc1)].
    + unfold destroy_members. simpl. rewrite Heff.
      by apply pending_not_run.
  - intros k Hk. unfold destroy_members in Hk. simpl in Hk. rewrite Hlen in Hk.
    destruct (lookup_lt_is_Some_2 _ _ Hk) as [st Hst].
    assert (Hcase : st = NotReady \/ st <> NotReady)
      by (destruct st; auto; by right).
    destruct Hcase as [->|Hne].
    + rewrite Hqueued; [done| |done].
      apply Hp1 in Hst. unfold envelopes, in_grip in Hst.
      rewrite Hths in Hst. simpl in Hst. by rewrite app_nil_r in Hst.
    + unfold future_get, destroy_members. simpl.
      rewrite (abandon_all_kept _ _ _ st Hst Hne). by destruct st.
Qed.

Lemma X12_witness :
  exists s1 s',
    terminate (after one_done_events) = Some s1 /\
    ThreadPool_delete (after one_done_events) = Some s' /\
    tasks_ (pool s') = [] /\
    getThreadNum (pool s') = 0 /\
    effects s' = effects s1 /\
    (forall k v, future_get s1 k = Some v -> future_get s' k = Some v) /\
    (forall t, t ∈ tasks_ (pool (after one_done_events)) ->
       future_get s' (task_id t) = Some (inr broken_promise) /\
       (task_id t ∉ effects s')) /\
    (forall k, k < length (futures s') -> is_Some (future_get s' k)).
Proof.
  apply (X12_destructor_breaks_queued_promises (after one_done_events)).
  apply after_reachable. by_evaluation.
Defined.
